(** * QuantumParticleInteractionSim: the pairwise force-and-integration core

    A shallow embedding of the two engines of the repository,

    - [server.js]: [simulate], the batch Newtonian-gravity engine, and the
      [POST /simulate] request handler around it;
    - [quantum_sim.js]: the pairwise Coulomb force loop of [draw], with the
      [Particle] methods it calls;

    and the properties of the specification checked against them.

    JavaScript numbers are IEEE-754 binary64 values.  The embedding is written
    once, over an interface [Number] of the arithmetic the two programs use,
    and read at two instances: the real numbers (exact arithmetic, where the
    algebraic properties are proved) and Rocq's primitive binary64 floats
    (where the code is run on concrete inputs, and where NaN, infinities and
    signed zeros are reasoned about through the IEEE specification of the
    primitives).

    [simulate] is embedded twice: on values, as a function from the array of
    bodies to the trajectory, and on a heap of objects ([Mem.simulate_mem]),
    where the copies made by [bodies.map] are allocated and written in
    place; the second returns the trajectory of the first. *)

From Stdlib Require Import ZArith List Bool Lia.
From Stdlib Require Import Reals Lra.
From Stdlib Require Import Floats.
From Stdlib Require String.
Import ListNotations.

Set Implicit Arguments.

(** ** Numbers *)

(** The arithmetic of a JavaScript program over numbers: the decimal literal
    [m]e[e] (that is [m * 10^e]), the four binary operators, [Math.sqrt] and
    [Math.max] (p5's [sqrt] and [max] are these on two numbers). *)
Class Number (num : Type) : Type := {
  lit : Z -> Z -> num;
  add : num -> num -> num;
  sub : num -> num -> num;
  mul : num -> num -> num;
  div : num -> num -> num;
  sqrt : num -> num;
  max : num -> num -> num
}.

Declare Scope js_scope.
Delimit Scope js_scope with js.
Infix "+" := add : js_scope.
Infix "-" := sub : js_scope.
Infix "*" := mul : js_scope.
Infix "/" := div : js_scope.

(** *** Exact arithmetic *)

Definition Rlit (m e : Z) : R :=
  if (0 <=? e)%Z then IZR (m * 10 ^ e) else (IZR m / IZR (10 ^ (- e)))%R.

#[export] Instance RNumber : Number R := {
  lit := Rlit;
  add := Rplus;
  sub := Rminus;
  mul := Rmult;
  div := Rdiv;
  sqrt := R_sqrt.sqrt;
  max := Rmax
}.

(** *** IEEE-754 binary64 *)

(** An integer as a float, exact below 2^53. *)
Definition float_of_Z (z : Z) : float :=
  match z with
  | Z0 => PrimFloat.zero
  | Zpos _ => PrimFloat.of_uint63 (Uint63.of_Z z)
  | Zneg _ => PrimFloat.opp (PrimFloat.of_uint63 (Uint63.of_Z (- z)))
  end.

(** A decimal literal: the mantissa and the power of ten are exact floats for
    the literals of the two programs, so the one rounding of the product or
    quotient gives the correctly rounded literal. *)
Definition float_lit (m e : Z) : float :=
  if (0 <=? e)%Z then PrimFloat.mul (float_of_Z m) (float_of_Z (10 ^ e))
  else PrimFloat.div (float_of_Z m) (float_of_Z (10 ^ (- e))).

(** [Math.max] on two numbers: NaN if either is NaN, and [+0] above [-0]
    (the sum of two zeros is [-0] only when both are). *)
Definition float_max (a b : float) : float :=
  if PrimFloat.is_nan a || PrimFloat.is_nan b then PrimFloat.nan
  else if PrimFloat.ltb a b then b
  else if PrimFloat.ltb b a then a
  else if PrimFloat.is_zero a then PrimFloat.add a b
  else a.

#[export] Instance FloatNumber : Number float := {
  lit := float_lit;
  add := PrimFloat.add;
  sub := PrimFloat.sub;
  mul := PrimFloat.mul;
  div := PrimFloat.div;
  sqrt := PrimFloat.sqrt;
  max := float_max
}.

(** ** Objects of the two programs *)

(** An object literal [{ x, y }]: a force accumulator or a recorded position
    of [server.js], a 2-D [p5.Vector] of [quantum_sim.js]. *)
Module Vec.
Record t (num : Type) : Type := mk { x : num; y : num }.
End Vec.

(** A body of [server.js]: [{ mass, x, y, vx, vy }]. *)
Module Body.
Record t (num : Type) : Type :=
  mk { mass : num; x : num; y : num; vx : num; vy : num }.
End Body.

(** [a[i] = f(a[i])] on an array; the programs only do this at an index below
    the length (outside it the list is left as it is). *)
Fixpoint update_nth {A : Type} (i : nat) (f : A -> A) (l : list A) : list A :=
  match l, i with
  | [], _ => []
  | a :: l', O => f a :: l'
  | a :: l', S i' => a :: update_nth i' f l'
  end.

(** ** [server.js]: the gravity engine *)

Module Gravity.
Section Engine.
Context {num : Type} `{Number num}.
Local Open Scope js_scope.

(** [const G = 1.0] *)
Definition G : num := lit 1 0.

(** The element read by [state[i]] for [i] below [state.length]. *)
Definition body0 : Body.t num :=
  Body.mk (lit 0 0) (lit 0 0) (lit 0 0) (lit 0 0) (lit 0 0).
Definition at_ (state : list (Body.t num)) (i : nat) : Body.t num :=
  nth i state body0.

(** Lines 43-49: the fresh object made from [b] by [bodies.map]. *)
Definition copy_body (b : Body.t num) : Body.t num :=
  Body.mk (Body.mass b) (Body.x b) (Body.y b) (Body.vx b) (Body.vy b).

(** Lines 56-58: [dx], [dy] and [distSq] for the pair ([a], [b]). *)
Definition dx (a b : Body.t num) : num := Body.x b - Body.x a.
Definition dy (a b : Body.t num) : num := Body.y b - Body.y a.
Definition distSq (a b : Body.t num) : num :=
  dx a b * dx a b + dy a b * dy a b + lit 1 (-8).

(** Line 61. *)
Definition forceMag (a b : Body.t num) : num :=
  (G * Body.mass a * Body.mass b) / distSq a b.

(** Lines 59, 62, 63: the vector ([fx], [fy]). *)
Definition pair_force (a b : Body.t num) : Vec.t num :=
  let dist := sqrt (distSq a b) in
  Vec.mk (forceMag a b * (dx a b / dist)) (forceMag a b * (dy a b / dist)).

(** [v.x += f.x; v.y += f.y] and [v.x -= f.x; v.y -= f.y]. *)
Definition plus_force (f v : Vec.t num) : Vec.t num :=
  Vec.mk (Vec.x v + Vec.x f) (Vec.y v + Vec.y f).
Definition minus_force (f v : Vec.t num) : Vec.t num :=
  Vec.mk (Vec.x v - Vec.x f) (Vec.y v - Vec.y f).

(** Lines 56-67: the body of the inner loop at ([i], [j]). *)
Definition apply_pair (state : list (Body.t num)) (i j : nat)
    (forces : list (Vec.t num)) : list (Vec.t num) :=
  let f := pair_force (at_ state i) (at_ state j) in
  update_nth j (minus_force f) (update_nth i (plus_force f) forces).

(** Line 55: [for (let j = i + 1; j < state.length; j++)]. *)
Definition inner_loop (state : list (Body.t num)) (i : nat)
    (forces : list (Vec.t num)) : list (Vec.t num) :=
  fold_left (fun fs j => apply_pair state i j fs)
            (seq (S i) (length state - S i)) forces.

(** Line 53. *)
Definition zero_forces (state : list (Body.t num)) : list (Vec.t num) :=
  map (fun _ => Vec.mk (lit 0 0) (lit 0 0)) state.

(** Lines 53-69: the forces on all bodies. *)
Definition accumulate (state : list (Body.t num)) : list (Vec.t num) :=
  fold_left (fun fs i => inner_loop state i fs)
            (seq 0 (length state)) (zero_forces state).

(** Lines 72-77 on one body; [r1] and [r2] are the values of the two calls
    of [Math.random()], in the order of evaluation. *)
Definition integrate_body (dt jitter : num) (f : Vec.t num) (r1 r2 : num)
    (b : Body.t num) : Body.t num :=
  let ax := Vec.x f / Body.mass b in
  let ay := Vec.y f / Body.mass b in
  let vx' := Body.vx b + ax * dt in
  let vy' := Body.vy b + ay * dt in
  let x' := Body.x b + (vx' * dt + (r1 - lit 5 (-1)) * jitter) in
  let y' := Body.y b + (vy' * dt + (r2 - lit 5 (-1)) * jitter) in
  Body.mk (Body.mass b) x' y' vx' vy'.

(** The random source: [rand k] is the value of the [k]-th call of
    [Math.random()] made by the run, counted from 0. *)
Definition source : Type := nat -> num.

(** Lines 71-78.  The loop state is the array and the number of calls of
    [Math.random()] made so far. *)
Definition integrate (dt jitter : num) (rand : source)
    (forces : list (Vec.t num)) (state : list (Body.t num)) (calls : nat)
    : list (Body.t num) * nat :=
  fold_left
    (fun '(st, k) i =>
       (update_nth i
          (integrate_body dt jitter (nth i forces (Vec.mk (lit 0 0) (lit 0 0)))
                          (rand k) (rand (S k))) st,
        S (S k)))
    (seq 0 (length state)) (state, calls).

(** Line 80: [state.map(b => ({ x: b.x, y: b.y }))]. *)
Definition snapshot (state : list (Body.t num)) : list (Vec.t num) :=
  map (fun b => Vec.mk (Body.x b) (Body.y b)) state.

(** Lines 52-78: one iteration of the outer loop, before the recording. *)
Definition step (dt jitter : num) (rand : source)
    (st : list (Body.t num) * nat) : list (Body.t num) * nat :=
  integrate dt jitter rand (accumulate (fst st)) (fst st) (snd st).

(** Lines 51-81, [n] iterations from the loop state [st]. *)
Fixpoint run (n : nat) (dt jitter : num) (rand : source)
    (st : list (Body.t num) * nat)
    (trajectories : list (list (Vec.t num))) : list (list (Vec.t num)) :=
  match n with
  | O => trajectories
  | S n' =>
      let st' := step dt jitter rand st in
      run n' dt jitter rand st' (trajectories ++ [snapshot (fst st')])
  end.

(** [simulate(bodies, dt, steps, jitter)].  [steps] is an integer; the loop
    [for (let step = 0; step < steps; step++)] makes [steps] iterations,
    none when [steps] is negative. *)
Definition simulate (bodies : list (Body.t num)) (dt : num) (steps : Z)
    (jitter : num) (rand : source) : list (list (Vec.t num)) :=
  run (Z.to_nat steps) dt jitter rand (map copy_body bodies, O) [].

End Engine.
End Gravity.

(** *** The call and the request handler *)

(** The error kinds of the specification's taxonomy. *)
Inductive error : Type := ValidationError | DomainError | ResourceLimitError.

(** What a call of a JavaScript function does: return a value or throw. *)
Inductive outcome (A : Type) : Type :=
| Returns (a : A)
| Throws (e : error).
Arguments Throws {A} e.

Module Server.
Section Handler.
Context {num : Type} `{Number num}.

(** A call of [simulate] on an array of bodies.  The function has no
    [throw] statement and no guard before its loop, and arithmetic on
    numbers never throws: the call returns what the loop computed. *)
Definition simulate_call (bodies : list (Body.t num)) (dt : num) (steps : Z)
    (jitter : num) (rand : Gravity.source)
    : outcome (list (list (Vec.t num))) :=
  Returns (Gravity.simulate bodies dt steps jitter rand).

(** [simulate(bodies, dt, steps)]: the default value of [jitter] is [0.0]. *)
Definition simulate_default (bodies : list (Body.t num)) (dt : num)
    (steps : Z) (rand : Gravity.source) : list (list (Vec.t num)) :=
  Gravity.simulate bodies dt steps (lit 0 0) rand.

(** The parsed request body: each field is absent ([None]) or present with
    the type the handler tests for. *)
Record payload : Type := mkPayload {
  bodies : option (list (Body.t num));
  dt : option num;
  steps : option Z;
  jitter : option num
}.

Inductive response : Type :=
| Ok200 (positions : list (list (Vec.t num)))
| BadRequest400.

Definition or_default {A : Type} (o : option A) (d : A) : A :=
  match o with Some a => a | None => d end.

(** Lines 122-137: the [end] callback of [POST /simulate]; [None] is a body
    on which [JSON.parse] throws. *)
Definition handle_simulate (parsed : option payload) (rand : Gravity.source)
    : response :=
  match parsed with
  | None => BadRequest400
  | Some p =>
      match simulate_call (or_default (bodies p) [])
                          (or_default (dt p) (lit 1 (-1)))
                          (or_default (steps p) 100%Z)
                          (or_default (jitter p) (lit 0 0)) rand with
      | Returns result => Ok200 result
      | Throws _ => BadRequest400
      end
  end.

End Handler.
End Server.

(** *** [simulate] on the heap *)

(** The objects of a call live in the heap of the caller: the array [bodies]
    and the body objects it refers to, which the caller may read after the
    call.  [simulate_mem] is [simulate] with the objects allocated, read and
    written where the code does it.  The arrays [state], [forces] and
    [trajectories] and the recorded positions are fresh and local to the
    call, or returned; their elements are kept as values. *)
Module Mem.
Section Heap.
Context {num : Type} `{Number num}.

Definition loc : Type := nat.

Inductive obj : Type :=
| OBody (b : Body.t num)
| OArray (refs : list loc).

(** Cells below [next] are allocated. *)
Record heap : Type := mkHeap { cells : loc -> obj; next : loc }.

Definition alloc (o : obj) (h : heap) : loc * heap :=
  (next h,
   mkHeap (fun l => if Nat.eqb l (next h) then o else cells h l)
          (S (next h))).

Definition write (l : loc) (o : obj) (h : heap) : heap :=
  mkHeap (fun l' => if Nat.eqb l' l then o else cells h l') (next h).

(** Reading the five fields of the object at [l], and the elements of the
    array at [l]. *)
Definition read_body (h : heap) (l : loc) : Body.t num :=
  match cells h l with
  | OBody b => b
  | OArray _ => Gravity.body0
  end.
Definition read_array (h : heap) (l : loc) : list loc :=
  match cells h l with
  | OArray refs => refs
  | OBody _ => []
  end.

(** Lines 43-49: [bodies.map(b => ({ ... }))] allocates one object per
    element, in index order. *)
Definition copy_bodies (h : heap) (refs : list loc) : heap * list loc :=
  fold_left
    (fun '(h', state) r =>
       let '(l, h'') :=
         alloc (OBody (Gravity.copy_body (read_body h' r))) h' in
       (h'', state ++ [l]))
    refs (h, []).

(** The values of the objects of [state]. *)
Definition load (h : heap) (state : list loc) : list (Body.t num) :=
  map (read_body h) state.

(** Lines 71-78: the four assignments to the fields of [state[i]]. *)
Definition integrate_mem (dt jitter : num) (rand : Gravity.source)
    (forces : list (Vec.t num)) (state : list loc) (hk : heap * nat)
    : heap * nat :=
  fold_left
    (fun '(h, k) i =>
       let l := nth i state O in
       (write l
          (OBody
             (Gravity.integrate_body dt jitter
                (nth i forces (Vec.mk (lit 0 0) (lit 0 0)))
                (rand k) (rand (S k)) (read_body h l)))
          h,
        S (S k)))
    (seq 0 (length state)) hk.

(** Lines 52-78: the force pass only reads [state]. *)
Definition step_mem (dt jitter : num) (rand : Gravity.source)
    (state : list loc) (hk : heap * nat) : heap * nat :=
  integrate_mem dt jitter rand (Gravity.accumulate (load (fst hk) state))
                state hk.

Fixpoint run_mem (n : nat) (dt jitter : num) (rand : Gravity.source)
    (state : list loc) (hk : heap * nat)
    (trajectories : list (list (Vec.t num)))
    : heap * list (list (Vec.t num)) :=
  match n with
  | O => (fst hk, trajectories)
  | S n' =>
      let hk' := step_mem dt jitter rand state hk in
      run_mem n' dt jitter rand state hk'
              (trajectories ++ [Gravity.snapshot (load (fst hk') state)])
  end.

(** [simulate(bodies, dt, steps, jitter)] from the heap [h], [bodies] the
    location of the caller's array: the heap after the call and the
    trajectory returned. *)
Definition simulate_mem (h : heap) (bodies : loc) (dt : num) (steps : Z)
    (jitter : num) (rand : Gravity.source)
    : heap * list (list (Vec.t num)) :=
  let '(h', state) := copy_bodies h (read_array h bodies) in
  run_mem (Z.to_nat steps) dt jitter rand state (h', O) [].

End Heap.
End Mem.

(** ** [quantum_sim.js]: the Coulomb force pass *)

Module Coulomb.
Section Engine.
Context {num : Type} `{Number num}.
Local Open Scope js_scope.

Definition COULOMB_CONSTANT : num := lit 500 0.
Definition MIN_DIST_SQ : num := lit 25 0.

(** [class Particle]: [pos], [vel] and [acc] are 2-D [p5.Vector]s. *)
Record Particle : Type := mkParticle {
  pos : Vec.t num;
  vel : Vec.t num;
  acc : Vec.t num;
  charge : num
}.

(** The [p5.Vector] operations the force pass calls, on the two components
    a vector made by [createVector(x, y)] uses: [sub], [add], [magSq], and
    [div] and [mult] by a number (finite, and for [div] non-zero; [dist]
    is at least 5 here). *)
Definition vsub (a b : Vec.t num) : Vec.t num :=
  Vec.mk (Vec.x a - Vec.x b) (Vec.y a - Vec.y b).
Definition vadd (a b : Vec.t num) : Vec.t num :=
  Vec.mk (Vec.x a + Vec.x b) (Vec.y a + Vec.y b).
Definition magSq (v : Vec.t num) : num := Vec.x v * Vec.x v + Vec.y v * Vec.y v.
Definition vdiv (v : Vec.t num) (n : num) : Vec.t num :=
  Vec.mk (Vec.x v / n) (Vec.y v / n).
Definition vmult (v : Vec.t num) (n : num) : Vec.t num :=
  Vec.mk (Vec.x v * n) (Vec.y v * n).

(** [resetForce()] and [applyForce(force)]. *)
Definition resetForce (p : Particle) : Particle :=
  mkParticle (pos p) (vel p) (Vec.mk (lit 0 0) (lit 0 0)) (charge p).
Definition applyForce (force : Vec.t num) (p : Particle) : Particle :=
  mkParticle (pos p) (vel p) (vadd (acc p) force) (charge p).

(** Lines 121-123. *)
Definition direction (p1 p2 : Particle) : Vec.t num := vsub (pos p2) (pos p1).
Definition distSq (p1 p2 : Particle) : num :=
  max (magSq (direction p1 p2)) MIN_DIST_SQ.
Definition dist (p1 p2 : Particle) : num := sqrt (distSq p1 p2).

(** Lines 125-129. *)
Definition forceDir (p1 p2 : Particle) : Vec.t num :=
  vdiv (direction p1 p2) (dist p1 p2).
Definition forceMag (p1 p2 : Particle) : num :=
  (COULOMB_CONSTANT * charge p1 * charge p2) / distSq p1 p2.
Definition force (p1 p2 : Particle) : Vec.t num :=
  vmult (forceDir p1 p2) (forceMag p1 p2).

Definition particle0 : Particle :=
  mkParticle (Vec.mk (lit 0 0) (lit 0 0)) (Vec.mk (lit 0 0) (lit 0 0))
             (Vec.mk (lit 0 0) (lit 0 0)) (lit 0 0).

(** Lines 118-132: the body of the inner loop at ([i], [j]), the drawing
    of the line left out. *)
Definition apply_pair (i j : nat) (particles : list Particle)
    : list Particle :=
  let p1 := nth i particles particle0 in
  let p2 := nth j particles particle0 in
  let f := force p1 p2 in
  update_nth j (applyForce (vmult f (lit (-1) 0)))
             (update_nth i (applyForce (vmult f (lit 1 0))) particles).

Definition inner_loop (i : nat) (particles : list Particle) : list Particle :=
  fold_left (fun ps j => apply_pair i j ps)
            (seq (S i) (length particles - S i)) particles.

(** Lines 111-150 of [draw]: the accelerations of all particles. *)
Definition force_pass (particles : list Particle) : list Particle :=
  fold_left (fun ps i => inner_loop i ps)
            (seq 0 (length particles)) (map resetForce particles).

End Engine.
End Coulomb.

(** ** [quantum_sim.js]: the frame, the set-up and the lines *)

(** The comparisons the sketch makes on numbers: [a < b] ([a > b] is
    [b < a]), [Math.min] and [Math.abs]. *)
Class Comparison (num : Type) : Type := {
  js_lt : num -> num -> bool;
  js_min : num -> num -> num;
  js_abs : num -> num
}.

#[export] Instance RComparison : Comparison R := {
  js_lt := fun a b => if Rlt_dec a b then true else false;
  js_min := Rmin;
  js_abs := Rabs
}.

(** [Math.min] on two numbers: NaN if either is NaN, and [-0] below [+0]
    (of two zeros, [a] is the result unless [b] alone is [-0]). *)
Definition float_min (a b : float) : float :=
  if PrimFloat.is_nan a || PrimFloat.is_nan b then PrimFloat.nan
  else if PrimFloat.ltb a b then a
  else if PrimFloat.ltb b a then b
  else if PrimFloat.is_zero a
       then (if PrimFloat.ltb (PrimFloat.div 1 b) 0 then b else a)
  else a.

#[export] Instance FloatComparison : Comparison float := {
  js_lt := PrimFloat.ltb;
  js_min := float_min;
  js_abs := PrimFloat.abs
}.

Module Sketch.
Section Frame.
Context {num : Type} `{Number num} `{Comparison num}.
Import Coulomb.
Local Open Scope js_scope.

Definition NUM_PARTICLES : nat := 20.
Definition LINE_RANGE : num := lit 200 0.

(** p5's [constrain(n, low, high)] is [Math.max(Math.min(n, high), low)]. *)
Definition constrain (n low high : num) : num := max (js_min n high) low.

(** p5's [map(n, start1, stop1, start2, stop2, true)] for
    [start2 < stop2]: the linear image of [n], constrained to the target
    range. *)
Definition p5_map (n start1 stop1 start2 stop2 : num) : num :=
  constrain ((n - start1) / (stop1 - start1) * (stop2 - start2) + start2)
            start2 stop2.

(** p5's [random(max)] and [random(min, max)] for [min <= max], from the
    value [r] its generator gives in [0, 1). *)
Definition random1 (r max_ : num) : num := r * max_.
Definition random2 (r min_ max_ : num) : num := r * (max_ - min_) + min_.

(** [createVector(x, y)] stores [x || 0] and [y || 0]: a number that is
    neither below nor above zero (a zero of either sign, or NaN) is stored
    as [0]. *)
Definition or_zero (x : num) : num :=
  if js_lt x (lit 0 0) || js_lt (lit 0 0) x then x else lit 0 0.
Definition createVector (x y : num) : Vec.t num :=
  Vec.mk (or_zero x) (or_zero y).

(** [new Particle(x, y, vx, vy, charge)]. *)
Definition new_Particle (x y vx vy charge : num) : Particle :=
  mkParticle (createVector x y) (createVector vx vy)
             (createVector (lit 0 0) (lit 0 0)) charge.

(** Lines 60-64 and 65-68: the two tests of [update] on a particle. *)
Definition bounce_x (width : num) (p : Particle) : Particle :=
  if js_lt (Vec.x (pos p)) (lit 0 0) || js_lt width (Vec.x (pos p))
  then mkParticle
         (Vec.mk (constrain (Vec.x (pos p)) (lit 0 0) width) (Vec.y (pos p)))
         (Vec.mk (Vec.x (vel p) * lit (-1) 0) (Vec.y (vel p)))
         (acc p) (charge p)
  else p.
Definition bounce_y (height : num) (p : Particle) : Particle :=
  if js_lt (Vec.y (pos p)) (lit 0 0) || js_lt height (Vec.y (pos p))
  then mkParticle
         (Vec.mk (Vec.x (pos p)) (constrain (Vec.y (pos p)) (lit 0 0) height))
         (Vec.mk (Vec.x (vel p)) (Vec.y (vel p) * lit (-1) 0))
         (acc p) (charge p)
  else p.

(** Lines 57-58: the Euler step of [update], for a finite [dt]. *)
Definition advance (dt : num) (p : Particle) : Particle :=
  let vel' := vadd (vel p) (vmult (acc p) dt) in
  mkParticle (vadd (pos p) (vmult vel' dt)) vel' (acc p) (charge p).

(** [update(dt)], in a canvas of the given [width] and [height]. *)
Definition update (dt width height : num) (p : Particle) : Particle :=
  bounce_y height (bounce_x width (advance dt p)).

(** Lines 136-148: the line [draw] strokes for a pair, if any: its two ends,
    the opacity, and whether it is green (same charge) or purple. *)
Record line : Type := mkLine {
  line_from : Vec.t num;
  line_to : Vec.t num;
  line_alpha : num;
  line_green : bool
}.

Definition pair_alpha (p1 p2 : Particle) : num :=
  p5_map (js_abs (forceMag p1 p2)) (lit 0 0) (COULOMB_CONSTANT / MIN_DIST_SQ)
         (lit 50 0) (lit 200 0).

Definition pair_line (p1 p2 : Particle) : option line :=
  if js_lt (dist p1 p2) LINE_RANGE
  then Some (mkLine (pos p1) (pos p2) (pair_alpha p1 p2)
                    (js_lt (lit 0 0) (charge p1 * charge p2)))
  else None.

(** The lines of one frame, in the order of the pair loop.  The loop reads
    only [pos] and [charge], which the force pass leaves as they are. *)
Definition lines_drawn (particles : list Particle) : list line :=
  flat_map
    (fun i =>
       flat_map
         (fun j =>
            match pair_line (nth i particles particle0)
                            (nth j particles particle0) with
            | Some l => [l]
            | None => []
            end)
         (seq (S i) (length particles - S i)))
    (seq 0 (length particles)).

(** [draw()] on the global [particles]: the force pass, then [update] on
    every particle, with [deltaTime] in milliseconds. *)
Definition draw (deltaTime width height : num) (particles : list Particle)
    : list Particle :=
  let dt := deltaTime / lit 1000 0 in
  map (update dt width height) (force_pass particles).

(** Lines 92-100: the particle that iteration [i] of [setup] pushes; [rand]
    gives the values of the four calls of [random] of every iteration, in
    order. *)
Definition setup_particle (width height : num) (rand : nat -> num) (i : nat)
    : Particle :=
  let x := random1 (rand (4 * i)%nat) width in
  let y := random1 (rand (4 * i + 1)%nat) height in
  let vx := random2 (rand (4 * i + 2)%nat) (lit (-50) 0) (lit 50 0) in
  let vy := random2 (rand (4 * i + 3)%nat) (lit (-50) 0) (lit 50 0) in
  let charge := if Nat.eqb (i mod 2) 0 then lit 1 0 else lit (-1) 0 in
  new_Particle x y vx vy charge.

(** [setup()] in a window of the given size, on the global [particles]. *)
Definition setup (width height : num) (rand : nat -> num)
    (particles : list Particle) : list Particle :=
  fold_left (fun ps i => ps ++ [setup_particle width height rand i])
            (seq 0 NUM_PARTICLES) particles.

End Frame.
End Sketch.

(** ** [server.js]: the routes *)

Module Http.
Section Routes.
Import String.StringSyntax.
Context {num : Type} `{Number num}.
Local Open Scope string_scope.

(** The environment of the server: [__dirname], [path.join], the lower-cased
    [path.extname] of a path, and the file system as [fs.readFile] sees it
    ([None] when it reports an error). *)
Variable dirname : String.string.
Variable join : String.string -> String.string -> String.string.
Variable extname_lower : String.string -> String.string.
Variable file : Type.
Variable readFile : String.string -> option file.

Inductive content : Type :=
| Text (s : String.string)
| File (data : file)
| Json (positions : list (list (Vec.t num))).

Record reply : Type := mkReply {
  statusCode : nat;
  contentType : String.string;
  sent : content
}.

(** [serveStaticFile(req, res, filePath, contentType)]. *)
Definition serveStaticFile (filePath contentType : String.string) : reply :=
  match readFile filePath with
  | None => mkReply 500 "text/plain" (Text "Internal Server Error")
  | Some data => mkReply 200 contentType (File data)
  end.

(** [typeMap[ext] || 'application/octet-stream']. *)
Definition asset_type (ext : String.string) : String.string :=
  if String.eqb ext ".js" then "application/javascript"
  else if String.eqb ext ".css" then "text/css"
  else "application/octet-stream".

(** The request listener: [method] and [pathname] of the request, and its
    body as [JSON.parse] reads it once it has arrived. *)
Definition listener (method pathname : String.string)
    (parsed : option Server.payload) (rand : Gravity.source) : reply :=
  if String.eqb method "GET"
     && (String.eqb pathname "/" || String.eqb pathname "/index.html")
  then serveStaticFile (join dirname "index.html") "text/html; charset=utf-8"
  else if String.eqb method "GET" && String.prefix "/assets/" pathname
  then let assetPath := join dirname pathname in
       serveStaticFile assetPath (asset_type (extname_lower assetPath))
  else if String.eqb method "POST" && String.eqb pathname "/simulate"
  then match Server.handle_simulate parsed rand with
       | Server.Ok200 result => mkReply 200 "application/json" (Json result)
       | Server.BadRequest400 =>
           mkReply 400 "text/plain" (Text "Invalid JSON payload")
       end
  else mkReply 404 "text/plain" (Text "Not Found").

End Routes.
End Http.

(** ** The vocabulary of the properties *)

Section LoopForms.
Import Gravity.
Context {num : Type} `{Number num}.

(** The integration loop as a recursion over the array: body [i] is
    advanced with [forces[i]] and the two next values of the source. *)
Fixpoint integrate_from (dt jitter : num) (rand : source)
    (forces : list (Vec.t num)) (state : list (Body.t num)) (k : nat)
    : list (Body.t num) :=
  match state, forces with
  | b :: state', f :: forces' =>
      integrate_body dt jitter f (rand k) (rand (S k)) b
      :: integrate_from dt jitter rand forces' state' (S (S k))
  | _, _ => state
  end.

(** The loop state of [simulate] after [k] iterations. *)
Definition state_after (bodies : list (Body.t num)) (dt jitter : num)
    (rand : source) (k : nat) : list (Body.t num) :=
  fst (Nat.iter k (step dt jitter rand) (map copy_body bodies, O)).

End LoopForms.

Section ExactValues.
Local Open Scope R_scope.

(** What an update added to an accumulator, the opposite of a vector and
    its magnitude. *)
Definition vdelta (v' v : Vec.t R) : Vec.t R :=
  Vec.mk (Vec.x v' - Vec.x v) (Vec.y v' - Vec.y v).
Definition vopp (v : Vec.t R) : Vec.t R := Vec.mk (- Vec.x v) (- Vec.y v).
Definition vnorm (v : Vec.t R) : R :=
  R_sqrt.sqrt (Vec.x v * Vec.x v + Vec.y v * Vec.y v).

(** The sums of the two components over an array of accumulators, and the
    total momentum [sum of mass * velocity] of an array of bodies. *)
Definition sum_x (forces : list (Vec.t R)) : R :=
  fold_right (fun v s => Vec.x v + s) 0 forces.
Definition sum_y (forces : list (Vec.t R)) : R :=
  fold_right (fun v s => Vec.y v + s) 0 forces.
Definition momentum_x (state : list (Body.t R)) : R :=
  fold_right (fun b s => Body.mass b * Body.vx b + s) 0 state.
Definition momentum_y (state : list (Body.t R)) : R :=
  fold_right (fun b s => Body.mass b * Body.vy b + s) 0 state.

(** The squared length of the separation of two points: [|d|^2] for
    [d = (bx - ax, by - ay)]. *)
Definition sep_sq (ax ay bx by_ : R) : R :=
  (bx - ax) * (bx - ax) + (by_ - ay) * (by_ - ay).

(** Two bodies of [server.js] at (0, 0) and (10, 0). *)
Definition body_at_origin : Body.t R := Body.mk 1 0 0 0 0.
Definition body_at_ten : Body.t R := Body.mk 1 10 0 0 0.

(** Masses [1, 1], positions (0, 0) and (10, 0), at rest. *)
Definition two_bodies : list (Body.t R) := [body_at_origin; body_at_ten].

(** [Math.sqrt(distSq)] of the pair, and the distance each body moves. *)
Definition scenario_dist : R := R_sqrt.sqrt (100 + 1 / 100000000).
Definition scenario_shift : R :=
  1 / (100 + 1 / 100000000) * (10 / scenario_dist).

(** One body of mass 1 at the origin, moving at speed 1 along x. *)
Definition moving_body : Body.t R := Body.mk 1%R 0%R 0%R 1%R 0%R.

End ExactValues.

Section Binary64Values.

(** A body of binary64 fields at the origin, at rest, with one field
    replaced. *)
Definition float_body (mass x vx : float) : Body.t float :=
  Body.mk mass x 0%float vx 0%float.

(** A float that is a zero of either sign or NaN, read on its IEEE value. *)
Definition sf_zero_or_nan (s : spec_float) : bool :=
  match s with
  | S754_zero _ | S754_nan => true
  | _ => false
  end.
Definition zero_or_nan (a : float) : bool := sf_zero_or_nan (Prim2SF a).

(** A float that is NaN. *)
Definition nan_value (a : float) : Prop := Prim2SF a = S754_nan.

(** A force vector with both components zero or NaN. *)
Definition zn_vec (v : Vec.t float) : Prop :=
  zero_or_nan (Vec.x v) = true /\ zero_or_nan (Vec.y v) = true.

(** A body whose position and velocity are NaN. *)
Definition nan_body (b : Body.t float) : Prop :=
  nan_value (Body.x b) /\ nan_value (Body.y b)
  /\ nan_value (Body.vx b) /\ nan_value (Body.vy b).

(** Two IEEE values that are the same, or zeros of either sign. *)
Definition sf_same (a b : spec_float) : Prop :=
  a = b \/ (exists s s', a = S754_zero s /\ b = S754_zero s').
Definition same (a b : float) : Prop := sf_same (Prim2SF a) (Prim2SF b).
Definition same_vec (v v' : Vec.t float) : Prop :=
  same (Vec.x v) (Vec.x v') /\ same (Vec.y v) (Vec.y v').
Definition same_body (b b' : Body.t float) : Prop :=
  Body.mass b = Body.mass b'
  /\ same (Body.x b) (Body.x b') /\ same (Body.y b) (Body.y b')
  /\ same (Body.vx b) (Body.vx b') /\ same (Body.vy b) (Body.vy b').

(** Equality of two numbers as a JavaScript program sees it: [a === b], or
    both are NaN.  [-0 === +0] holds, and [JSON.stringify] writes both as
    [0]. *)
Definition js_equal (a b : float) : bool :=
  PrimFloat.eqb a b || (PrimFloat.is_nan a && PrimFloat.is_nan b).
Definition js_equal_vec (p p' : Vec.t float) : Prop :=
  js_equal (Vec.x p) (Vec.x p') = true /\ js_equal (Vec.y p) (Vec.y p') = true.

(** A random source whose values, like those of [Math.random()], are finite
    once [0.5] is subtracted. *)
Definition centred (rand : @Gravity.source float) : Prop :=
  forall k, PrimFloat.is_finite (PrimFloat.sub (rand k) 0.5) = true.

(** A body of mass -1 whose [x] and [vx] are [-0]. *)
Definition negative_zero_body : Body.t float :=
  Body.mk (-1)%float (-0)%float 0%float (-0)%float 0%float.

End Binary64Values.

Section HeapRelations.
Import Mem.
Context {num : Type} `{Number num}.

(** [h'] has the objects of [h] where [h] had allocated them. *)
Definition extends (h h' : @heap num) : Prop :=
  next h <= next h' /\ forall l, l < next h -> cells h' l = cells h l.

(** The objects of [state] are fresh: allocated by the call, after [h0]. *)
Definition fresh (h0 h : @heap num) (state : list loc) : Prop :=
  forall l, In l state -> next h0 <= l < next h.

End HeapRelations.

(** The heap of a caller: the two bodies of the scenario at 0 and 1, and
    the array of the two at 2. *)
Definition caller_heap : @Mem.heap R :=
  Mem.mkHeap (fun l => match l with
                   | 0 => Mem.OBody body_at_origin
                   | 1 => Mem.OBody body_at_ten
                   | _ => Mem.OArray [0; 1]
                   end) 3.

(** *** Further vocabulary *)

Section RunValues.
Local Open Scope R_scope.

(** A random source with the range of [Math.random()]: values in [0, 1). *)
Definition unit_source (rand : nat -> R) : Prop :=
  forall k, 0 <= rand k < 1.

(** The sums of the charges and of the two velocity components of the
    particles of the sketch. *)
Definition total_charge (particles : list (@Coulomb.Particle R)) : R :=
  fold_right (fun p s => Coulomb.charge p + s) 0 particles.

(** A particle inside the canvas, borders included. *)
Definition in_canvas (width height : R) (p : @Coulomb.Particle R) : Prop :=
  0 <= Vec.x (Coulomb.pos p) <= width /\ 0 <= Vec.y (Coulomb.pos p) <= height.

End RunValues.

Section Binary64Poison.

(** A body with a NaN coordinate, a force with both components NaN, and an
    array of bodies all of whose positions and velocities are NaN. *)
Definition nan_position (b : Body.t float) : Prop :=
  nan_value (Body.x b) \/ nan_value (Body.y b).
Definition nan_vec (v : Vec.t float) : Prop :=
  nan_value (Vec.x v) /\ nan_value (Vec.y v).
Definition all_nan (state : list (Body.t float)) : Prop :=
  forall j, j < length state -> nan_body (nth j state Gravity.body0).

End Binary64Poison.

Section RouteValues.
Import String.StringSyntax.
Variable dirname : String.string.
Variable join : String.string -> String.string -> String.string.
Local Open Scope string_scope.

(** The file a [GET] of [pathname] is served from, if it is a static
    route. *)
Definition static_path (pathname : String.string) : option String.string :=
  if String.eqb pathname "/" || String.eqb pathname "/index.html"
  then Some (join dirname "index.html")
  else if String.prefix "/assets/" pathname
  then Some (join dirname pathname)
  else None.

End RouteValues.

Section SketchValues.
Context {num : Type} `{Number num}.

(** What the force pass does not touch in a particle. *)
Definition rest_of (p : @Coulomb.Particle num) : Vec.t num * Vec.t num * num :=
  (Coulomb.pos p, Coulomb.vel p, Coulomb.charge p).

End SketchValues.

(** ** Arrays updated in place *)

Section UpdateNth.
Variable A : Type.
Implicit Types (l : list A) (f : A -> A) (i j : nat).

Lemma update_nth_length f l : forall i, length (update_nth i f l) = length l.
Proof.
  induction l as [|a l IH]; intros [|i]; simpl; auto.
Qed.

Lemma nth_update_nth_eq f d l :
  forall i, i < length l -> nth i (update_nth i f l) d = f (nth i l d).
Proof.
  induction l as [|a l IH]; intros [|i] Hi; simpl in *; try lia; auto.
  apply IH; lia.
Qed.

Lemma nth_update_nth_neq f d l :
  forall i j, i <> j -> nth j (update_nth i f l) d = nth j l d.
Proof.
  induction l as [|a l IH]; intros [|i] [|j] Hij; simpl; auto; try lia.
Qed.

Lemma update_nth_out f l : forall i, length l <= i -> update_nth i f l = l.
Proof.
  induction l as [|a l IH]; intros [|i] Hi; simpl in *; auto; try lia.
  f_equal. apply IH. lia.
Qed.

(** Updating every index in turn is a [map] over the array and the
    positions: the form of the loops [for (i = 0; i < a.length; i++)] that
    assign to [a[i]] from [a[i]] and [i]. *)
Lemma update_nth_app f l1 a l2 :
  update_nth (length l1) f (l1 ++ a :: l2) = l1 ++ f a :: l2.
Proof.
  induction l1 as [|b l1 IH]; simpl; auto. now rewrite IH.
Qed.
End UpdateNth.

(** ** The loops of [simulate], whatever the arithmetic *)

Section GravityLoops.
Import Gravity.
Context {num : Type} `{Number num}.
Implicit Types (state : list (Body.t num)) (forces : list (Vec.t num)).

Lemma apply_pair_length state i j forces :
  length (apply_pair state i j forces) = length forces.
Proof. unfold apply_pair. now rewrite !update_nth_length. Qed.

Lemma inner_loop_length state i forces :
  length (inner_loop state i forces) = length forces.
Proof.
  unfold inner_loop.
  generalize (seq (S i) (length state - S i)) as js. intros js; revert forces.
  induction js as [|j js IH]; intros forces; simpl; auto.
  now rewrite IH, apply_pair_length.
Qed.

Lemma accumulate_length state : length (accumulate state) = length state.
Proof.
  unfold accumulate.
  assert (Hz : length (zero_forces state) = length state)
    by (unfold zero_forces; apply length_map).
  revert Hz. generalize (zero_forces state) as fs.
  generalize (seq 0 (length state)) as is_.
  induction is_ as [|i is_ IH]; intros fs Hfs; simpl; auto.
  apply IH. now rewrite inner_loop_length.
Qed.

Lemma integrate_from_length dt jitter rand :
  forall state forces k,
    length (integrate_from dt jitter rand forces state k) = length state.
Proof.
  induction state as [|b state IH]; intros [|f forces] k; simpl; auto.
Qed.

Lemma integrate_prefix dt jitter rand forces :
  forall n done todo k,
    n <= length todo ->
    length forces = length done + length todo ->
    fold_left
      (fun '(st, k) i =>
         (update_nth i
            (integrate_body dt jitter
               (nth i forces (Vec.mk (lit 0 0) (lit 0 0)))
               (rand k) (rand (S k))) st,
          S (S k)))
      (seq (length done) n) (done ++ todo, k)
    = (done
         ++ integrate_from dt jitter rand
              (firstn n (skipn (length done) forces)) (firstn n todo) k
         ++ skipn n todo,
       k + 2 * n).
Proof.
  induction n as [|n IH]; intros done todo k Hn Hf.
  - simpl. now rewrite Nat.add_0_r.
  - destruct todo as [|b todo]; simpl in Hn; [lia|].
    cbn [seq fold_left].
    rewrite update_nth_app.
    replace (done ++ integrate_body dt jitter
               (nth (length done) forces (Vec.mk (lit 0 0) (lit 0 0)))
               (rand k) (rand (S k)) b :: todo)
      with ((done ++ [integrate_body dt jitter
               (nth (length done) forces (Vec.mk (lit 0 0) (lit 0 0)))
               (rand k) (rand (S k)) b]) ++ todo)
      by now rewrite <- app_assoc.
    replace (S (length done))
      with (length (done ++ [integrate_body dt jitter
               (nth (length done) forces (Vec.mk (lit 0 0) (lit 0 0)))
               (rand k) (rand (S k)) b]))
      by (rewrite length_app; simpl; lia).
    rewrite (IH _ todo);
      try (rewrite ?length_app; simpl in *; lia).
    rewrite length_app. cbn [length].
    replace (length done + 1) with (S (length done)) by lia.
    rewrite <- app_assoc. cbn [app].
    f_equal; [|lia].
    f_equal.
    assert (Hsk : skipn (length done) forces
                  = nth (length done) forces (Vec.mk (lit 0 0) (lit 0 0))
                    :: skipn (S (length done)) forces).
    { clear - Hf. revert forces Hf.
      induction done as [|d done IHd]; intros [|f forces] Hf;
        simpl in *; try lia; auto.
      all: apply IHd; lia. }
    rewrite Hsk. cbn [firstn integrate_from skipn app]. reflexivity.
Qed.

Lemma integrate_spec dt jitter rand forces state k :
  length forces = length state ->
  integrate dt jitter rand forces state k
  = (integrate_from dt jitter rand forces state k, k + 2 * length state).
Proof.
  intros Hf. unfold integrate.
  pose proof (@integrate_prefix dt jitter rand forces (length state)
                [] state k (le_n _)) as HP.
  simpl in HP. rewrite HP by lia.
  rewrite skipn_all, app_nil_r, firstn_all.
  now rewrite <- Hf, firstn_all.
Qed.

Lemma step_spec dt jitter rand state k :
  step dt jitter rand (state, k)
  = (integrate_from dt jitter rand (accumulate state) state k,
     k + 2 * length state).
Proof.
  unfold step. simpl. apply integrate_spec, accumulate_length.
Qed.

Lemma step_length dt jitter rand st :
  length (fst (step dt jitter rand st)) = length (fst st).
Proof.
  destruct st as [state k]. rewrite step_spec. simpl.
  apply integrate_from_length.
Qed.

Lemma iter_step_length dt jitter rand st n :
  length (fst (Nat.iter n (step dt jitter rand) st)) = length (fst st).
Proof.
  induction n as [|n IH]; simpl; auto. now rewrite step_length.
Qed.

(** The recorder: the [k]-th snapshot is taken from the loop state after
    [k + 1] iterations. *)
Lemma run_spec dt jitter rand :
  forall n st trajectories,
    run n dt jitter rand st trajectories
    = trajectories
        ++ map (fun k => snapshot (fst (Nat.iter (S k) (step dt jitter rand) st)))
               (seq 0 n).
Proof.
  induction n as [|n IH]; intros st trajectories.
  - simpl. now rewrite app_nil_r.
  - cbn [run]. rewrite IH, <- app_assoc. f_equal.
    cbn [seq map app]. f_equal.
    rewrite <- seq_shift, map_map.
    apply map_ext. intros k. now rewrite !Nat.iter_succ_r.
Qed.

Lemma snapshot_length state : length (snapshot state) = length state.
Proof. apply length_map. Qed.

End GravityLoops.

(** ** The recorder *)

Section Recorder.
Import Gravity.
Context {num : Type} `{Number num}.

Lemma state_after_length bodies dt jitter rand k :
  length (state_after bodies dt jitter rand k) = length bodies.
Proof.
  unfold state_after. rewrite iter_step_length. simpl. apply length_map.
Qed.

Lemma simulate_spec bodies dt steps jitter rand :
  simulate bodies dt steps jitter rand
  = map (fun k => snapshot (state_after bodies dt jitter rand (S k)))
        (seq 0 (Z.to_nat steps)).
Proof. unfold simulate. now rewrite run_spec. Qed.

Lemma simulate_length bodies dt steps jitter rand :
  length (simulate bodies dt steps jitter rand) = Z.to_nat steps.
Proof. now rewrite simulate_spec, length_map, length_seq. Qed.

Lemma simulate_nth bodies dt steps jitter rand k :
  k < Z.to_nat steps ->
  nth k (simulate bodies dt steps jitter rand) []
  = snapshot (state_after bodies dt jitter rand (S k)).
Proof.
  intros Hk. rewrite simulate_spec.
  rewrite (nth_indep _ [] (snapshot (state_after bodies dt jitter rand 1)))
    by now rewrite length_map, length_seq.
  rewrite (map_nth (fun k => snapshot (state_after bodies dt jitter rand (S k)))
                   (seq 0 (Z.to_nat steps)) 0 k).
  now rewrite seq_nth.
Qed.

Lemma snapshot_nth state i d :
  i < length state ->
  nth i (snapshot state) d
  = Vec.mk (Body.x (nth i state body0)) (Body.y (nth i state body0)).
Proof.
  intros Hi. unfold snapshot.
  rewrite (nth_indep _ d (Vec.mk (Body.x body0) (Body.y body0)))
    by now rewrite length_map.
  apply (map_nth (fun b => Vec.mk (Body.x b) (Body.y b))).
Qed.

(** C7.  For a non-negative integer [steps], [simulate] returns exactly
    [steps] snapshots; snapshot [k] has one position per input body, and
    its [i]-th position is that of body [i] in the state after iteration
    [k] has integrated; with [steps = 0] the result is empty. *)
Theorem simulate_records_each_step
    (bodies : list (Body.t num)) (dt : num) (steps : Z) (jitter : num)
    (rand : source) :
  (0 <= steps)%Z ->
  let t := simulate bodies dt steps jitter rand in
  Z.of_nat (length t) = steps /\
  (forall k, k < length t ->
     length (nth k t []) = length bodies /\
     forall i d, i < length bodies ->
       nth i (nth k t []) d
       = Vec.mk (Body.x (nth i (state_after bodies dt jitter rand (S k)) body0))
                (Body.y (nth i (state_after bodies dt jitter rand (S k)) body0))) /\
  (steps = 0%Z -> t = []).
Proof.
  intros Hs t. subst t. rewrite simulate_length. repeat split.
  - lia.
  - rewrite simulate_nth, snapshot_length by assumption.
    apply state_after_length.
  - intros i d Hi. rewrite simulate_nth by assumption.
    apply snapshot_nth. now rewrite state_after_length.
  - intros ->. reflexivity.
Qed.

End Recorder.

(** ** Exact arithmetic: the literals *)

Lemma Rlit_0 : Rlit 0 0 = 0%R.
Proof. reflexivity. Qed.

Lemma Rlit_1 : Rlit 1 0 = 1%R.
Proof. reflexivity. Qed.

Lemma Rlit_m1 : Rlit (-1) 0 = (-1)%R.
Proof. reflexivity. Qed.

Lemma Rlit_half : Rlit 5 (-1) = (5 / 10)%R.
Proof. reflexivity. Qed.

Lemma Rlit_eps : Rlit 1 (-8) = (1 / 100000000)%R.
Proof. reflexivity. Qed.

Lemma Rlit_25 : Rlit 25 0 = 25%R.
Proof. reflexivity. Qed.

Lemma Rlit_500 : Rlit 500 0 = 500%R.
Proof. reflexivity. Qed.

(** Reads the operations of [Number] at the instance of the reals. *)
Ltac to_R :=
  cbn [lit add sub mul div sqrt max RNumber] in *;
  rewrite ?Rlit_0, ?Rlit_1, ?Rlit_m1, ?Rlit_half, ?Rlit_eps, ?Rlit_25,
    ?Rlit_500 in *.

(** ** Zero jitter: the random source does not matter *)

Section ZeroJitter.
Import Gravity.
Local Open Scope R_scope.

Lemma integrate_body_jitter0 dt f (r1 r2 r1' r2' : R) (b : Body.t R) :
  integrate_body dt 0 f r1 r2 b = integrate_body dt 0 f r1' r2' b.
Proof.
  unfold integrate_body. to_R. now rewrite !Rmult_0_r.
Qed.

Lemma integrate_from_jitter0 dt (rand rand' : source) :
  forall state forces k k',
    integrate_from dt 0 rand forces state k
    = integrate_from dt 0 rand' forces state k'.
Proof.
  induction state as [|b state IH]; intros [|f forces] k k'; simpl; auto.
  f_equal; [apply integrate_body_jitter0 | apply IH].
Qed.

Lemma step_jitter0 dt (rand rand' : source) st :
  step dt 0 rand st = step dt 0 rand' st.
Proof.
  destruct st as [state k]. rewrite !step_spec. f_equal.
  apply integrate_from_jitter0.
Qed.

Lemma state_after_jitter0 bodies dt (rand rand' : source) k :
  state_after bodies dt 0 rand k = state_after bodies dt 0 rand' k.
Proof.
  unfold state_after. f_equal.
  induction k as [|k IH]; simpl; auto.
  rewrite IH. apply step_jitter0.
Qed.

(** In exact arithmetic the trajectories of two sources are equal. *)
Lemma simulate_zero_jitter_exact
    (bodies : list (Body.t R)) (dt : R) (steps : Z) (rand rand' : source) :
  simulate bodies dt steps 0 rand = simulate bodies dt steps 0 rand'.
Proof.
  rewrite !simulate_spec. apply map_ext. intros k.
  now rewrite (state_after_jitter0 bodies dt rand rand').
Qed.

End ZeroJitter.

(** ** Zero jitter in binary64 *)

(** In binary64 the random contribution [(Math.random() - 0.5) * 0] is a zero
    of either sign.  The runs of two sources are followed in step: every
    number of one is the number of the other, or both are zeros. *)
Section ZeroJitterBinary64.
Import Gravity.
Local Open Scope float_scope.

Lemma sf_same_refl a : sf_same a a.
Proof. now left. Qed.

Lemma SFmul_same a a' b b' :
  sf_same a a' -> sf_same b b' -> sf_same (SF64mul a b) (SF64mul a' b').
Proof.
  intros Ha Hb. unfold SF64mul, SFmul.
  destruct Ha as [->|(s & s' & -> & ->)], Hb as [->|(t & t' & -> & ->)].
  - now left.
  - destruct a'; simpl; try (now left); right; eauto.
  - destruct b'; simpl; try (now left); right; eauto.
  - right; eauto.
Qed.

Lemma SFadd_same a a' b b' :
  sf_same a a' -> sf_same b b' -> sf_same (SF64add a b) (SF64add a' b').
Proof.
  intros Ha Hb. unfold SF64add, SFadd.
  destruct Ha as [->|(s & s' & -> & ->)], Hb as [->|(t & t' & -> & ->)].
  - now left.
  - destruct a' as [[|]| | |]; destruct t, t'; simpl; try (now left); right; eauto.
  - destruct b' as [[|]| | |]; destruct s, s'; simpl; try (now left); right; eauto.
  - destruct s, s', t, t'; right; eauto.
Qed.

Lemma SFsub_same a a' b b' :
  sf_same a a' -> sf_same b b' -> sf_same (SF64sub a b) (SF64sub a' b').
Proof.
  intros Ha Hb. unfold SF64sub, SFsub.
  destruct Ha as [->|(s & s' & -> & ->)], Hb as [->|(t & t' & -> & ->)].
  - now left.
  - destruct a' as [[|]| | |]; destruct t, t'; simpl; try (now left); right; eauto.
  - destruct b' as [[|]| | |]; destruct s, s'; simpl; try (now left); right; eauto.
  - destruct s, s', t, t'; right; eauto.
Qed.

Lemma SFdiv_same a a' b :
  sf_same a a' -> sf_same (SF64div a b) (SF64div a' b).
Proof.
  intros Ha. unfold SF64div, SFdiv.
  destruct Ha as [->|(s & s' & -> & ->)].
  - now left.
  - destruct b; simpl; try (now left); right; eauto.
Qed.

Lemma Prim2SF_inj a b : Prim2SF a = Prim2SF b -> a = b.
Proof.
  intros Heq. rewrite <- (SF2Prim_Prim2SF a), <- (SF2Prim_Prim2SF b).
  now rewrite Heq.
Qed.

Lemma same_refl a : same a a.
Proof. apply sf_same_refl. Qed.

Lemma mul_same a a' b b' : same a a' -> same b b' -> same (a * b) (a' * b').
Proof. unfold same. rewrite !mul_spec. apply SFmul_same. Qed.

Lemma add_same a a' b b' : same a a' -> same b b' -> same (a + b) (a' + b').
Proof. unfold same. rewrite !add_spec. apply SFadd_same. Qed.

Lemma sub_same a a' b b' : same a a' -> same b b' -> same (a - b) (a' - b').
Proof. unfold same. rewrite !sub_spec. apply SFsub_same. Qed.

Lemma div_same a a' b : same a a' -> same (a / b) (a' / b).
Proof. unfold same. rewrite !div_spec. apply SFdiv_same. Qed.

Lemma add_finite_same a a' c s m e :
  Prim2SF c = S754_finite s m e -> same a a' -> a + c = a' + c.
Proof.
  unfold same. intros Hc [Ha|(t & t' & Ha & Ha')]; apply Prim2SF_inj;
    rewrite !add_spec, Hc.
  - now rewrite Ha.
  - rewrite Ha, Ha'. reflexivity.
Qed.

Lemma SFcompare_refl a : a <> S754_nan -> SFcompare a a = Some Eq.
Proof.
  destruct a as [[|]|[|]| |[|] m e]; simpl; intros Hn; try reflexivity;
    try congruence;
    now rewrite Z.compare_refl, Pos.compare_cont_refl.
Qed.

Lemma same_js_equal a b : same a b -> js_equal a b = true.
Proof.
  unfold same, js_equal, PrimFloat.is_nan. rewrite !FloatAxioms.eqb_spec.
  intros [Heq|(s & s' & -> & ->)].
  - rewrite <- Heq. unfold SFeqb.
    destruct (Prim2SF a) eqn:Ha; try reflexivity;
      rewrite SFcompare_refl by discriminate; reflexivity.
  - reflexivity.
Qed.

Lemma is_finite_spec a :
  PrimFloat.is_finite a = true ->
  (exists s, Prim2SF a = S754_zero s) \/ (exists s m e, Prim2SF a = S754_finite s m e).
Proof.
  unfold PrimFloat.is_finite, PrimFloat.is_nan, PrimFloat.is_infinity.
  rewrite !FloatAxioms.eqb_spec, abs_spec.
  change (Prim2SF infinity) with (S754_infinity false).
  destruct (Prim2SF a) as [s|[|]| |s m e]; simpl; try discriminate; eauto 6.
Qed.

Lemma centred_times_zero_same r r' :
  PrimFloat.is_finite (r - 0.5) = true -> PrimFloat.is_finite (r' - 0.5) = true ->
  same ((r - 0.5) * 0) ((r' - 0.5) * 0).
Proof.
  intros Hr Hr'. unfold same. rewrite !mul_spec.
  change (Prim2SF 0) with (S754_zero false).
  destruct (is_finite_spec _ Hr) as [[s ->]|(s & m & e & ->)],
           (is_finite_spec _ Hr') as [[s' ->]|(s' & m' & e' & ->)];
    simpl; right; eauto.
Qed.

Lemma eps_finite : exists s m e, Prim2SF (lit 1 (-8)) = S754_finite s m e.
Proof. vm_compute. eauto. Qed.

Lemma distSq_same (a a' b b' : Body.t float) :
  same_body a a' -> same_body b b' -> distSq a b = distSq a' b'.
Proof.
  intros (_ & Hax & Hay & _) (_ & Hbx & Hby & _).
  destruct eps_finite as (s & m & e & Heps).
  unfold distSq, dx, dy. cbn [add sub mul FloatNumber].
  eapply add_finite_same; [exact Heps|].
  apply add_same; apply mul_same; now apply sub_same.
Qed.

Lemma pair_force_same (a a' b b' : Body.t float) :
  same_body a a' -> same_body b b' ->
  same_vec (pair_force a b) (pair_force a' b').
Proof.
  intros Ha Hb.
  assert (Hf : forceMag a b = forceMag a' b').
  { unfold forceMag. rewrite (distSq_same Ha Hb).
    destruct Ha as (-> & _), Hb as (-> & _). reflexivity. }
  unfold pair_force. rewrite Hf, (distSq_same Ha Hb).
  destruct Ha as (_ & Hax & Hay & _), Hb as (_ & Hbx & Hby & _).
  unfold dx, dy. cbn [add sub mul div sqrt FloatNumber].
  split; cbn [Vec.x Vec.y]; (apply mul_same; [apply same_refl|]);
    apply div_same; now apply sub_same.
Qed.

Lemma plus_force_same f f' v v' :
  same_vec f f' -> same_vec v v' -> same_vec (plus_force f v) (plus_force f' v').
Proof.
  intros [Hfx Hfy] [Hvx Hvy]. unfold plus_force.
  split; cbn [Vec.x Vec.y add FloatNumber]; now apply add_same.
Qed.

Lemma minus_force_same f f' v v' :
  same_vec f f' -> same_vec v v' -> same_vec (minus_force f v) (minus_force f' v').
Proof.
  intros [Hfx Hfy] [Hvx Hvy]. unfold minus_force.
  split; cbn [Vec.x Vec.y sub FloatNumber]; now apply sub_same.
Qed.

Lemma Forall2_nth {A : Type} (R : A -> A -> Prop) d d' :
  R d d' -> forall l l', Forall2 R l l' -> forall i, R (nth i l d) (nth i l' d').
Proof.
  intros Hd l l' Hl. induction Hl as [|a a' l l' Ha Hl IH]; intros [|i]; simpl; auto.
Qed.

Lemma Forall2_update_nth {A : Type} (R : A -> A -> Prop) (f f' : A -> A) :
  (forall a a', R a a' -> R (f a) (f' a')) ->
  forall l l', Forall2 R l l' ->
  forall i, Forall2 R (update_nth i f l) (update_nth i f' l').
Proof.
  intros Hf l l' Hl. induction Hl as [|a a' l l' Ha Hl IH]; intros [|i]; simpl; auto.
Qed.

Lemma same_body_refl b : same_body b b.
Proof. repeat split; apply same_refl. Qed.

Lemma same_vec_refl v : same_vec v v.
Proof. split; apply same_refl. Qed.

Section SameStates.
Variables state state' : list (Body.t float).
Hypothesis Hstate : Forall2 same_body state state'.

Lemma at_same i : same_body (at_ state i) (at_ state' i).
Proof. unfold at_. apply Forall2_nth; [apply same_body_refl | assumption]. Qed.

Lemma apply_pair_same i j forces forces' :
  Forall2 same_vec forces forces' ->
  Forall2 same_vec (apply_pair state i j forces) (apply_pair state' i j forces').
Proof.
  intros Hf. unfold apply_pair.
  pose proof (pair_force_same (at_same i) (at_same j)) as Hp.
  apply Forall2_update_nth; [intros; now apply minus_force_same|].
  apply Forall2_update_nth; [intros; now apply plus_force_same|].
  assumption.
Qed.

Lemma inner_loop_same i forces forces' :
  Forall2 same_vec forces forces' ->
  Forall2 same_vec (inner_loop state i forces) (inner_loop state' i forces').
Proof.
  unfold inner_loop. rewrite <- (Forall2_length Hstate).
  generalize (seq (S i) (length state - S i)) as js.
  intros js; revert forces forces'.
  induction js as [|j js IH]; intros forces forces' Hf; simpl; auto.
  now apply IH, apply_pair_same.
Qed.

Lemma accumulate_same :
  Forall2 same_vec (accumulate state) (accumulate state').
Proof.
  unfold accumulate. rewrite <- (Forall2_length Hstate).
  assert (Hz : Forall2 same_vec (zero_forces state) (zero_forces state')).
  { unfold zero_forces. clear -Hstate.
    induction Hstate; simpl; constructor; auto. apply same_vec_refl. }
  revert Hz. generalize (zero_forces state) (zero_forces state').
  generalize (seq 0 (length state)) as is_.
  induction is_ as [|i is_ IH]; intros forces forces' Hf; simpl; auto.
  now apply IH, inner_loop_same.
Qed.

End SameStates.

Lemma integrate_body_same dt f f' r1 r2 r1' r2' b b' :
  same_vec f f' -> same_body b b' ->
  PrimFloat.is_finite (r1 - 0.5) = true -> PrimFloat.is_finite (r2 - 0.5) = true ->
  PrimFloat.is_finite (r1' - 0.5) = true -> PrimFloat.is_finite (r2' - 0.5) = true ->
  same_body (integrate_body dt 0 f r1 r2 b) (integrate_body dt 0 f' r1' r2' b').
Proof.
  intros [Hfx Hfy] (Hm & Hx & Hy & Hvx & Hvy) H1 H2 H1' H2'.
  unfold integrate_body. cbn [add sub mul div lit FloatNumber].
  change (float_lit 5 (-1)) with 0.5.
  rewrite <- Hm. unfold same_body.
  cbn [Body.mass Body.x Body.y Body.vx Body.vy].
  assert (Hvx' : same (Body.vx b + Vec.x f / Body.mass b * dt)
                      (Body.vx b' + Vec.x f' / Body.mass b * dt))
    by (apply add_same; [assumption|]; apply mul_same;
        [now apply div_same | apply same_refl]).
  assert (Hvy' : same (Body.vy b + Vec.y f / Body.mass b * dt)
                      (Body.vy b' + Vec.y f' / Body.mass b * dt))
    by (apply add_same; [assumption|]; apply mul_same;
        [now apply div_same | apply same_refl]).
  repeat split; auto.
  - apply add_same; [assumption|]. apply add_same.
    + apply mul_same; [assumption | apply same_refl].
    + now apply centred_times_zero_same.
  - apply add_same; [assumption|]. apply add_same.
    + apply mul_same; [assumption | apply same_refl].
    + now apply centred_times_zero_same.
Qed.

Lemma integrate_from_same dt (rand rand' : source) :
  centred rand -> centred rand' ->
  forall state state', Forall2 same_body state state' ->
  forall forces forces', Forall2 same_vec forces forces' ->
  forall k k',
    Forall2 same_body (integrate_from dt 0 rand forces state k)
                      (integrate_from dt 0 rand' forces' state' k').
Proof.
  intros Hr Hr' state state' Hs.
  induction Hs as [|b b' state state' Hb Hs IH]; intros forces forces' Hf k k'.
  - destruct Hf; simpl; constructor.
  - destruct Hf as [|f f' forces forces' Hf Hfs]; cbn [integrate_from].
    + constructor; assumption.
    + constructor; [|now apply IH].
      apply integrate_body_same; auto.
Qed.

Lemma state_after_same bodies dt (rand rand' : source) :
  centred rand -> centred rand' ->
  forall k, Forall2 same_body (state_after bodies dt 0 rand k)
                              (state_after bodies dt 0 rand' k).
Proof.
  intros Hr Hr'. unfold state_after. induction k as [|k IH].
  - simpl. induction bodies; simpl; constructor; auto. apply same_body_refl.
  - change (Nat.iter (S k) (step dt 0 rand) (map copy_body bodies, O))
      with (step dt 0 rand (Nat.iter k (step dt 0 rand) (map copy_body bodies, O))).
    change (Nat.iter (S k) (step dt 0 rand') (map copy_body bodies, O))
      with (step dt 0 rand' (Nat.iter k (step dt 0 rand') (map copy_body bodies, O))).
    destruct (Nat.iter k (step dt 0 rand) (map copy_body bodies, O)) as [st c].
    destruct (Nat.iter k (step dt 0 rand') (map copy_body bodies, O)) as [st' c'].
    rewrite !step_spec. cbn [fst] in *.
    apply integrate_from_same; auto. now apply accumulate_same.
Qed.

Lemma simulate_zero_jitter_binary64
    (bodies : list (Body.t float)) (dt : float) (steps : Z) (rand rand' : source) :
  centred rand -> centred rand' ->
  Forall2 (Forall2 js_equal_vec)
          (simulate bodies dt steps 0 rand) (simulate bodies dt steps 0 rand').
Proof.
  intros Hr Hr'. rewrite !simulate_spec.
  induction (seq 0 (Z.to_nat steps)) as [|k ks IH]; simpl; constructor; auto.
  pose proof (state_after_same bodies dt Hr Hr' (S k)) as Hs.
  unfold snapshot. induction Hs as [|b b' st st' Hb Hs IHs]; simpl; constructor; auto.
  destruct Hb as (_ & Hx & Hy & _).
  split; now apply same_js_equal.
Qed.

(** C8, the claim at one body.  The sign of a zero can depend on the
    source: with [jitter = 0], a body of mass -1 with [x = -0] and
    [vx = -0] ends at [-0] when [Math.random()] gives 0.25 and at [+0] when
    it gives 0.75, so two calls on the same bodies, [dt] and [steps] return
    trajectories that are not exactly equal. *)
Lemma zero_sign_may_differ :
  map (map (fun p => Prim2SF (Vec.x p)))
      (simulate [negative_zero_body] 1 1 0
                (fun _ => SF2Prim (S754_finite false 1 (-2))))
  = [[S754_zero true]]
  /\ map (map (fun p => Prim2SF (Vec.x p)))
         (simulate [negative_zero_body] 1 1 0
                   (fun _ => SF2Prim (S754_finite false 3 (-2))))
     = [[S754_zero false]]
  /\ simulate [negative_zero_body] 1 1 0
              (fun _ => SF2Prim (S754_finite false 1 (-2)))
     <> simulate [negative_zero_body] 1 1 0
                 (fun _ => SF2Prim (S754_finite false 3 (-2))).
Proof.
  split; [vm_compute; reflexivity|]. split; [vm_compute; reflexivity|].
  intros He.
  apply (f_equal (map (map (fun p => Prim2SF (Vec.x p))))) in He.
  vm_compute in He. discriminate He.
Qed.

End ZeroJitterBinary64.

(** C8, as the code has it.  With [jitter = 0] two calls of [simulate] on
    the same bodies, [dt] and [steps] return trajectories that agree,
    whatever values [Math.random()] gives in either call: equal in exact
    arithmetic, and in binary64, for the finite values of [Math.random()],
    equal number by number as [===] compares them (or NaN in both); the
    sign of a zero may differ. *)
Theorem simulate_zero_jitter_deterministic :
  (forall (bodies : list (Body.t R)) (dt : R) (steps : Z)
          (rand rand' : Gravity.source),
      Gravity.simulate bodies dt steps 0%R rand
      = Gravity.simulate bodies dt steps 0%R rand')
  /\
  (forall (bodies : list (Body.t float)) (dt : float) (steps : Z)
          (rand rand' : Gravity.source),
      centred rand -> centred rand' ->
      Forall2 (Forall2 js_equal_vec)
              (Gravity.simulate bodies dt steps 0%float rand)
              (Gravity.simulate bodies dt steps 0%float rand')).
Proof.
  split.
  - exact simulate_zero_jitter_exact.
  - exact simulate_zero_jitter_binary64.
Qed.

(** ** One pair: what the two accumulators receive *)

Section PairUpdate.
Context {num : Type} `{Number num}.

Lemma gravity_apply_pair_nth (state : list (Body.t num)) i j
    (forces : list (Vec.t num)) d :
  i < j < length forces ->
  let f := Gravity.pair_force (Gravity.at_ state i) (Gravity.at_ state j) in
  nth i (Gravity.apply_pair state i j forces) d
  = Gravity.plus_force f (nth i forces d)
  /\ nth j (Gravity.apply_pair state i j forces) d
     = Gravity.minus_force f (nth j forces d)
  /\ forall k, k <> i -> k <> j ->
       nth k (Gravity.apply_pair state i j forces) d = nth k forces d.
Proof.
  intros Hij f. unfold Gravity.apply_pair. fold f. repeat split.
  - rewrite nth_update_nth_neq by lia.
    apply nth_update_nth_eq. lia.
  - rewrite nth_update_nth_eq by (rewrite update_nth_length; lia).
    now rewrite nth_update_nth_neq by lia.
  - intros k Hi Hj. now rewrite !nth_update_nth_neq by lia.
Qed.

Lemma coulomb_apply_pair_nth i j (particles : list Coulomb.Particle) d :
  i < j < length particles ->
  let f := Coulomb.force (nth i particles Coulomb.particle0)
                         (nth j particles Coulomb.particle0) in
  nth i (Coulomb.apply_pair i j particles) d
  = Coulomb.applyForce (Coulomb.vmult f (lit 1 0)) (nth i particles d)
  /\ nth j (Coulomb.apply_pair i j particles) d
     = Coulomb.applyForce (Coulomb.vmult f (lit (-1) 0)) (nth j particles d)
  /\ forall k, k <> i -> k <> j ->
       nth k (Coulomb.apply_pair i j particles) d = nth k particles d.
Proof.
  intros Hij f. unfold Coulomb.apply_pair. fold f. repeat split.
  - rewrite nth_update_nth_neq by lia.
    apply nth_update_nth_eq. lia.
  - rewrite nth_update_nth_eq by (rewrite update_nth_length; lia).
    now rewrite nth_update_nth_neq by lia.
  - intros k Hi Hj. now rewrite !nth_update_nth_neq by lia.
Qed.

End PairUpdate.

Section ThirdLaw.
Local Open Scope R_scope.

Lemma vnorm_vopp v : vnorm (vopp v) = vnorm v.
Proof. unfold vnorm, vopp. simpl. f_equal. ring. Qed.

Lemma vdelta_plus_force f v : vdelta (Gravity.plus_force f v) v = f.
Proof.
  destruct f as [fx fy], v as [a b]. unfold vdelta, Gravity.plus_force.
  to_R. simpl. f_equal; ring.
Qed.

Lemma vdelta_minus_force f v : vdelta (Gravity.minus_force f v) v = vopp f.
Proof.
  destruct f as [fx fy], v as [a b].
  unfold vdelta, vopp, Gravity.minus_force. to_R. simpl. f_equal; ring.
Qed.

Lemma vdelta_applyForce_plus f (p : Coulomb.Particle) :
  vdelta (Coulomb.acc (Coulomb.applyForce (Coulomb.vmult f (lit 1 0)) p))
         (Coulomb.acc p) = f.
Proof.
  destruct f as [fx fy], p as [ps vl [a b] c].
  unfold vdelta, Coulomb.applyForce, Coulomb.vmult, Coulomb.vadd.
  to_R. simpl. f_equal; ring.
Qed.

Lemma vdelta_applyForce_minus f (p : Coulomb.Particle) :
  vdelta (Coulomb.acc (Coulomb.applyForce (Coulomb.vmult f (lit (-1) 0)) p))
         (Coulomb.acc p) = vopp f.
Proof.
  destruct f as [fx fy], p as [ps vl [a b] c].
  unfold vdelta, vopp, Coulomb.applyForce, Coulomb.vmult, Coulomb.vadd.
  to_R. simpl. f_equal; ring.
Qed.

(** C9.  In one pass of either engine, at a pair [i < j] of the array the
    vector added to the accumulator of [i] is the force of the pair, and
    the vector added to the accumulator of [j] is its exact opposite, of
    the same magnitude. *)
Theorem pair_forces_equal_and_opposite :
  (forall (state : list (Body.t R)) (forces : list (Vec.t R)) i j d,
      (i < j < length forces)%nat ->
      let forces' := Gravity.apply_pair state i j forces in
      let onA := vdelta (nth i forces' d) (nth i forces d) in
      let onB := vdelta (nth j forces' d) (nth j forces d) in
      onA = Gravity.pair_force (Gravity.at_ state i) (Gravity.at_ state j)
      /\ onB = vopp onA /\ vnorm onB = vnorm onA)
  /\
  (forall (particles : list (@Coulomb.Particle R)) i j d,
      (i < j < length particles)%nat ->
      let particles' := Coulomb.apply_pair i j particles in
      let onA := vdelta (Coulomb.acc (nth i particles' d))
                        (Coulomb.acc (nth i particles d)) in
      let onB := vdelta (Coulomb.acc (nth j particles' d))
                        (Coulomb.acc (nth j particles d)) in
      onA = Coulomb.force (nth i particles Coulomb.particle0)
                          (nth j particles Coulomb.particle0)
      /\ onB = vopp onA /\ vnorm onB = vnorm onA).
Proof.
  split.
  - intros state forces i j d Hij forces' onA onB.
    destruct (gravity_apply_pair_nth state forces d Hij) as (Hi & Hj & _).
    assert (HA : onA = Gravity.pair_force (Gravity.at_ state i)
                                          (Gravity.at_ state j)).
    { unfold onA, forces'. rewrite Hi. apply vdelta_plus_force. }
    assert (HB : onB = vopp onA).
    { rewrite HA. unfold onB, forces'. rewrite Hj.
      apply vdelta_minus_force. }
    repeat split; auto. rewrite HB. apply vnorm_vopp.
  - intros particles i j d Hij particles' onA onB.
    destruct (coulomb_apply_pair_nth particles d Hij) as (Hi & Hj & _).
    assert (HA : onA = Coulomb.force (nth i particles Coulomb.particle0)
                                     (nth j particles Coulomb.particle0)).
    { unfold onA, particles'. rewrite Hi. apply vdelta_applyForce_plus. }
    assert (HB : onB = vopp onA).
    { rewrite HA. unfold onB, particles'. rewrite Hj.
      apply vdelta_applyForce_minus. }
    repeat split; auto. rewrite HB. apply vnorm_vopp.
Qed.

End ThirdLaw.

(** ** Linear momentum *)

Section Momentum.
Import Gravity.
Local Open Scope R_scope.

Lemma sum_update_nth (f : Vec.t R -> Vec.t R) d :
  forall forces i, (i < length forces)%nat ->
    sum_x (update_nth i f forces)
    = sum_x forces - Vec.x (nth i forces d) + Vec.x (f (nth i forces d))
    /\ sum_y (update_nth i f forces)
       = sum_y forces - Vec.y (nth i forces d) + Vec.y (f (nth i forces d)).
Proof.
  induction forces as [|v forces IH]; intros [|i] Hi; simpl in *; try lia.
  - split; ring.
  - destruct (IH i ltac:(lia)) as [Hx Hy]. rewrite Hx, Hy. split; ring.
Qed.

Lemma apply_pair_sum state i j forces :
  (i < j < length forces)%nat ->
  sum_x (apply_pair state i j forces) = sum_x forces
  /\ sum_y (apply_pair state i j forces) = sum_y forces.
Proof.
  intros Hij. unfold apply_pair.
  set (f := pair_force (at_ state i) (at_ state j)).
  set (d := Vec.mk 0 0).
  destruct (@sum_update_nth (minus_force f) d
              (update_nth i (plus_force f) forces) j) as [Hx Hy];
    [rewrite update_nth_length; lia|].
  destruct (@sum_update_nth (plus_force f) d forces i) as [Hx' Hy']; [lia|].
  rewrite Hx, Hy, Hx', Hy', nth_update_nth_neq by lia.
  destruct (nth i forces d) as [xi yi], (nth j forces d) as [xj yj],
    f as [fx fy].
  unfold plus_force, minus_force. to_R. simpl. split; ring.
Qed.

Lemma inner_loop_sum state i forces :
  length forces = length state ->
  sum_x (inner_loop state i forces) = sum_x forces
  /\ sum_y (inner_loop state i forces) = sum_y forces.
Proof.
  intros Hlen. unfold inner_loop.
  assert (Hjs : forall j, In j (seq (S i) (length state - S i)) ->
                          (i < j < length forces)%nat)
    by (intros j Hj; apply in_seq in Hj; lia).
  revert Hjs. generalize (seq (S i) (length state - S i)) as js.
  clear Hlen. intros js; revert forces.
  induction js as [|j js IH]; intros forces Hjs; simpl; auto.
  destruct (IH (apply_pair state i j forces)) as [Hx Hy].
  - intros j' Hj'. rewrite apply_pair_length. apply Hjs. now right.
  - destruct (@apply_pair_sum state i j forces) as [Hx' Hy'];
      [apply Hjs; now left|].
    split; congruence.
Qed.

Lemma zero_forces_sum (state : list (Body.t R)) :
  sum_x (zero_forces state) = 0 /\ sum_y (zero_forces state) = 0.
Proof.
  unfold zero_forces. induction state as [|b state [IHx IHy]]; simpl; auto.
  to_R. rewrite IHx, IHy. split; ring.
Qed.

(** Newton's third law, summed: the forces of a pass add up to zero. *)
Lemma accumulate_sum (state : list (Body.t R)) :
  sum_x (accumulate state) = 0 /\ sum_y (accumulate state) = 0.
Proof.
  unfold accumulate.
  assert (Hfold : forall is_ forces,
             length forces = length state ->
             sum_x (fold_left (fun fs i => inner_loop state i fs) is_ forces)
             = sum_x forces
             /\ sum_y (fold_left (fun fs i => inner_loop state i fs) is_ forces)
                = sum_y forces).
  { induction is_ as [|i is_ IH]; intros forces Hlen; simpl; auto.
    destruct (IH (inner_loop state i forces)) as [Hx Hy];
      [now rewrite inner_loop_length|].
    destruct (@inner_loop_sum state i forces Hlen) as [Hx' Hy'].
    split; congruence. }
  destruct (Hfold (seq 0 (length state)) (zero_forces state)) as [Hx Hy];
    [apply length_map|].
  destruct (zero_forces_sum state) as [Zx Zy].
  split; congruence.
Qed.

Lemma integrate_from_momentum dt jitter (rand : source) :
  forall state forces k,
    length forces = length state ->
    (forall b, In b state -> Body.mass b <> 0) ->
    momentum_x (integrate_from dt jitter rand forces state k)
    = momentum_x state + sum_x forces * dt
    /\ momentum_y (integrate_from dt jitter rand forces state k)
       = momentum_y state + sum_y forces * dt.
Proof.
  induction state as [|b state IH]; intros [|f forces] k Hlen Hm;
    simpl in *; try discriminate.
  - split; ring.
  - destruct (IH forces (S (S k))) as [Hx Hy]; [lia | now auto |].
    rewrite Hx, Hy.
    assert (Hb : Body.mass b <> 0) by (apply Hm; now left).
    to_R. split; field; exact Hb.
Qed.

(** C10.  In exact arithmetic, with every mass non-zero, one iteration of the
    loop of [simulate] (forces, then integration with any [dt], jitter and
    random values) leaves both components of the total momentum unchanged. *)
Theorem step_conserves_momentum
    (state : list (Body.t R)) (calls : nat) (dt jitter : R) (rand : source) :
  (forall b, In b state -> Body.mass b <> 0) ->
  let state' := fst (step dt jitter rand (state, calls)) in
  momentum_x state' = momentum_x state /\ momentum_y state' = momentum_y state.
Proof.
  intros Hm state'. subst state'. rewrite step_spec. cbn [fst].
  destruct (@integrate_from_momentum dt jitter rand state (accumulate state)
              calls (accumulate_length state) Hm) as [Hx Hy].
  destruct (accumulate_sum state) as [Sx Sy].
  rewrite Hx, Hy, Sx, Sy. split; ring.
Qed.

End Momentum.

(** ** The softened denominators *)

Section Softening.
Local Open Scope R_scope.

Lemma sep_sq_nonneg ax ay bx by_ : 0 <= sep_sq ax ay bx by_.
Proof.
  unfold sep_sq. generalize (bx - ax) (by_ - ay). intros u v.
  pose proof (Rle_0_sqr u). pose proof (Rle_0_sqr v). unfold Rsqr in *. lra.
Qed.

Lemma gravity_distSq_eq (a b : Body.t R) :
  Gravity.distSq a b
  = sep_sq (Body.x a) (Body.y a) (Body.x b) (Body.y b) + 1 / 100000000.
Proof. unfold Gravity.distSq, Gravity.dx, Gravity.dy, sep_sq. now to_R. Qed.

Lemma gravity_distSq_pos (a b : Body.t R) : 0 < Gravity.distSq a b.
Proof.
  rewrite gravity_distSq_eq.
  pose proof (sep_sq_nonneg (Body.x a) (Body.y a) (Body.x b) (Body.y b)).
  lra.
Qed.

Lemma coulomb_distSq_eq (p1 p2 : @Coulomb.Particle R) :
  Coulomb.distSq p1 p2
  = Rmax (sep_sq (Vec.x (Coulomb.pos p1)) (Vec.y (Coulomb.pos p1))
                 (Vec.x (Coulomb.pos p2)) (Vec.y (Coulomb.pos p2))) 25.
Proof.
  unfold Coulomb.distSq, Coulomb.magSq, Coulomb.direction, Coulomb.vsub,
    Coulomb.MIN_DIST_SQ, sep_sq.
  now to_R.
Qed.

(** The gravity engine is not floored: no constant [eps2] makes its
    denominator [max(|d|^2, eps2)] for all pairs. *)
Lemma gravity_distSq_no_floor :
  ~ exists eps2 : R, forall a b : Body.t R,
      Gravity.distSq a b
      = Rmax (sep_sq (Body.x a) (Body.y a) (Body.x b) (Body.y b)) eps2.
Proof.
  intros [eps2 Heps].
  pose proof (Heps body_at_origin body_at_origin) as H0.
  pose proof (Heps body_at_origin body_at_ten) as H10.
  rewrite gravity_distSq_eq in H0, H10.
  unfold sep_sq, body_at_origin, body_at_ten in H0, H10. simpl in H0, H10.
  revert H0 H10. unfold Rmax.
  repeat destruct Rle_dec; intros; lra.
Qed.


(** In binary64 the added constant can be rounded away: for bodies 100000
    apart the denominator is [1e10], the squared distance itself. *)
Lemma gravity_distSq_rounds :
  Gravity.distSq (float_body 1 0 0) (float_body 1 100000 0)
  = 10000000000%float.
Proof. vm_compute. reflexivity. Qed.


End Softening.

(** ** The Coulomb pass: the net force *)

Section CoulombPass.
Import Coulomb.
Local Open Scope R_scope.

Lemma map_update_nth {A B : Type} (h : A -> B) (g : A -> A) (g' : B -> B) :
  (forall a, h (g a) = g' (h a)) ->
  forall l i, map h (update_nth i g l) = update_nth i g' (map h l).
Proof.
  intros Hg. induction l as [|a l IH]; intros [|i]; simpl; auto.
  - now rewrite Hg.
  - now rewrite IH.
Qed.

Lemma coulomb_apply_pair_length i j (particles : list (@Particle R)) :
  length (apply_pair i j particles) = length particles.
Proof. unfold apply_pair. now rewrite !update_nth_length. Qed.

Lemma coulomb_inner_loop_length i (particles : list (@Particle R)) :
  length (inner_loop i particles) = length particles.
Proof.
  unfold inner_loop.
  generalize (seq (S i) (length particles - S i)) as js.
  intros js; revert particles.
  induction js as [|j js IH]; intros particles; simpl; auto.
  now rewrite IH, coulomb_apply_pair_length.
Qed.

Lemma coulomb_apply_pair_sum i j (particles : list (@Particle R)) :
  (i < j < length particles)%nat ->
  sum_x (map acc (apply_pair i j particles)) = sum_x (map acc particles)
  /\ sum_y (map acc (apply_pair i j particles)) = sum_y (map acc particles).
Proof.
  intros Hij. unfold apply_pair.
  set (f := force (nth i particles particle0) (nth j particles particle0)).
  set (d := Vec.mk 0 0).
  rewrite (map_update_nth acc (applyForce (vmult f (lit (-1) 0)))
             (fun a => vadd a (vmult f (lit (-1) 0)))) by reflexivity.
  rewrite (map_update_nth acc (applyForce (vmult f (lit 1 0)))
             (fun a => vadd a (vmult f (lit 1 0)))) by reflexivity.
  destruct (@sum_update_nth (fun a => vadd a (vmult f (lit (-1) 0))) d
              (update_nth i (fun a => vadd a (vmult f (lit 1 0)))
                          (map acc particles)) j) as [Hx Hy];
    [rewrite update_nth_length, length_map; lia|].
  destruct (@sum_update_nth (fun a => vadd a (vmult f (lit 1 0))) d
              (map acc particles) i) as [Hx' Hy'];
    [rewrite length_map; lia|].
  rewrite Hx, Hy, Hx', Hy', nth_update_nth_neq by lia.
  destruct (nth i (map acc particles) d) as [xi yi],
    (nth j (map acc particles) d) as [xj yj], f as [fx fy].
  unfold vadd, vmult. to_R. simpl. split; ring.
Qed.

Lemma coulomb_inner_loop_sum i (particles : list (@Particle R)) :
  sum_x (map acc (inner_loop i particles)) = sum_x (map acc particles)
  /\ sum_y (map acc (inner_loop i particles)) = sum_y (map acc particles).
Proof.
  unfold inner_loop.
  assert (Hjs : forall j, In j (seq (S i) (length particles - S i)) ->
                          (i < j < length particles)%nat)
    by (intros j Hj; apply in_seq in Hj; lia).
  revert Hjs. generalize (seq (S i) (length particles - S i)) as js.
  intros js; revert particles.
  induction js as [|j js IH]; intros particles Hjs; simpl; auto.
  destruct (IH (apply_pair i j particles)) as [Hx Hy].
  - intros j' Hj'. rewrite coulomb_apply_pair_length. apply Hjs. now right.
  - destruct (@coulomb_apply_pair_sum i j particles) as [Hx' Hy'];
      [apply Hjs; now left|].
    split; congruence.
Qed.

(** X2.  Newton's third law, summed over the pass of [draw]: in exact
    arithmetic the accelerations the pass leaves in the particles add up to
    zero. *)
Theorem force_pass_net_zero (particles : list (@Particle R)) :
  sum_x (map acc (force_pass particles)) = 0
  /\ sum_y (map acc (force_pass particles)) = 0.
Proof.
  unfold force_pass.
  assert (Hz : sum_x (map acc (map resetForce particles)) = 0
               /\ sum_y (map acc (map resetForce particles)) = 0).
  { induction particles as [|p ps [IHx IHy]]; simpl; auto.
    to_R. rewrite IHx, IHy. split; ring. }
  revert Hz. generalize (map resetForce particles) as ps.
  generalize (seq 0 (length particles)) as is_.
  induction is_ as [|i is_ IH]; intros ps Hz; simpl; auto.
  apply IH. destruct (coulomb_inner_loop_sum i ps) as [Hx Hy].
  destruct Hz as [Zx Zy]. split; congruence.
Qed.

(** X3.  The floor bounds the Coulomb force, however close the particles:
    [|forceMag| <= COULOMB_CONSTANT * |q1 * q2| / MIN_DIST_SQ]. *)
Theorem coulomb_forceMag_bounded (p1 p2 : @Particle R) :
  Rabs (forceMag p1 p2) <= 500 * Rabs (charge p1 * charge p2) / 25.
Proof.
  unfold forceMag, COULOMB_CONSTANT. rewrite coulomb_distSq_eq. to_R.
  set (d := Rmax _ 25).
  assert (Hd : 25 <= d) by apply Rmax_r.
  set (q := charge p1 * charge p2).
  replace (500 * charge p1 * charge p2 / d) with (500 * q * / d)
    by (unfold q, Rdiv; ring).
  rewrite !Rabs_mult, Rabs_inv.
  rewrite (Rabs_pos_eq 500) by lra. rewrite (Rabs_pos_eq d) by lra.
  unfold Rdiv. apply Rmult_le_compat_l.
  - pose proof (Rabs_pos q). nra.
  - apply Rinv_le_contravar; lra.
Qed.

End CoulombPass.

(** ** The two-body scenario *)

Section Scenario.
Import Gravity.
Local Open Scope R_scope.

Lemma simulate_one_step (bodies : list (Body.t R)) dt jitter rand :
  simulate bodies dt 1 jitter rand
  = [snapshot (fst (step dt jitter rand (map copy_body bodies, O)))].
Proof. reflexivity. Qed.

Lemma scenario_dist_bounds :
  10 < scenario_dist < 10 + 5 / 10000000000
  /\ scenario_dist * scenario_dist = 100 + 1 / 100000000.
Proof.
  unfold scenario_dist.
  assert (Hsq : R_sqrt.sqrt (100 + 1 / 100000000)
                * R_sqrt.sqrt (100 + 1 / 100000000)
                = 100 + 1 / 100000000) by (apply sqrt_sqrt; lra).
  pose proof (sqrt_pos (100 + 1 / 100000000)) as Hpos.
  revert Hsq Hpos. generalize (R_sqrt.sqrt (100 + 1 / 100000000)).
  intros s Hsq Hpos. repeat split; auto; nra.
Qed.

Lemma scenario_forceMag :
  forceMag body_at_origin body_at_ten = 1 / (100 + 1 / 100000000).
Proof.
  unfold forceMag, G. rewrite gravity_distSq_eq. to_R.
  unfold sep_sq, body_at_origin, body_at_ten. simpl. f_equal; ring.
Qed.

Lemma scenario_shift_bounds :
  1 / 100 - 2 / 1000000000000 < scenario_shift < 1 / 100.
Proof.
  destruct scenario_dist_bounds as [[Hlo Hhi] Hsq].
  unfold scenario_shift. revert Hlo Hhi Hsq.
  generalize scenario_dist. intros s Hlo Hhi _.
  replace (1 / (100 + 1 / 100000000) * (10 / s))
    with (10 / ((100 + 1 / 100000000) * s)) by (field; lra).
  set (D := (100 + 1 / 100000000) * s).
  assert (HD : 1000 < D < 1000 + 16 / 100000000) by (unfold D; nra).
  split.
  - apply Rmult_lt_reg_r with D; [lra|].
    replace (10 / D * D) with 10 by (field; lra). nra.
  - apply Rmult_lt_reg_r with D; [lra|].
    replace (10 / D * D) with 10 by (field; lra). nra.
Qed.

Lemma scenario_trajectory (rand : source) :
  simulate two_bodies 1 1 0 rand
  = [[Vec.mk scenario_shift 0; Vec.mk (10 - scenario_shift) 0]].
Proof.
  destruct scenario_dist_bounds as [[Hlo _] _].
  rewrite simulate_one_step. unfold two_bodies. cbn [map].
  rewrite step_spec. cbn [fst]. unfold accumulate.
  cbn [length seq fold_left zero_forces map inner_loop Nat.sub apply_pair
       update_nth at_ nth integrate_from snapshot].
  unfold integrate_body, plus_force, minus_force, pair_force, forceMag,
    distSq, dx, dy, G, copy_body, body_at_origin, body_at_ten.
  cbn [Body.x Body.y Body.vx Body.vy Body.mass Vec.x Vec.y]. to_R.
  replace ((10 - 0) * (10 - 0) + (0 - 0) * (0 - 0) + 1 / 100000000)
    with (100 + 1 / 100000000) by lra.
  fold scenario_dist. unfold scenario_shift.
  match goal with
  | |- [[Vec.mk ?a ?b; Vec.mk ?c ?d]] = [[Vec.mk ?a' ?b'; Vec.mk ?c' ?d']] =>
      replace a with a' by (field; lra); replace b with b' by (field; lra);
      replace c with c' by (field; lra); replace d with d' by (field; lra)
  end.
  reflexivity.
Qed.

(** C1, the claim at its input: the force magnitude is not 0.01, and the
    snapshot is not [(0.01, 0), (9.99, 0)]. *)
Lemma scenario_is_not_exact :
  forceMag body_at_origin body_at_ten <> 1 / 100
  /\ simulate two_bodies 1 1 0 (fun _ => 0)
     <> [[Vec.mk (1 / 100) 0; Vec.mk (999 / 100) 0]].
Proof.
  split.
  - rewrite scenario_forceMag. intros Heq.
    apply (f_equal (fun r => r * (100 + 1 / 100000000))) in Heq.
    field_simplify in Heq; lra.
  - rewrite scenario_trajectory. intros Heq.
    injection Heq as Heq _.
    pose proof scenario_shift_bounds. lra.
Qed.

(** C1, as the code computes it.  With the softening term in the denominator
    the force magnitude is [1 / (100 + 1e-8)], and the one snapshot is
    [(s, 0), (10 - s, 0)] for [s = forceMag * (10 / sqrt(100 + 1e-8))]:
    body 0 moves by [+s] and body 1 by [-s] along x, with
    [0.01 - 2e-12 < s < 0.01]. *)
Theorem scenario_with_softening (rand : source) :
  forceMag body_at_origin body_at_ten = 1 / (100 + 1 / 100000000)
  /\ simulate two_bodies 1 1 0 rand
     = [[Vec.mk scenario_shift 0; Vec.mk (10 - scenario_shift) 0]]
  /\ scenario_shift
     = forceMag body_at_origin body_at_ten
       * (10 / R_sqrt.sqrt (100 + 1 / 100000000))
  /\ 1 / 100 - 2 / 1000000000000 < scenario_shift < 1 / 100.
Proof.
  repeat split.
  - apply scenario_forceMag.
  - apply scenario_trajectory.
  - now rewrite scenario_forceMag.
  - apply scenario_shift_bounds.
  - apply scenario_shift_bounds.
Qed.

(** The scenario in binary64, where the code runs: body 0 ends at
    [5764607522169544 * 2^-59 = 0.0099999999985000004...], below the float
    0.01, and body 1 at [5623870034679751 * 2^-49 = 9.9900000000014995...],
    above the float 9.99. *)
Lemma scenario_binary64 :
  let t := simulate [float_body 1 0 0; float_body 1 10 0] 1%float 1 0%float
                    (fun _ => 0%float) in
  map (map (fun p => (Prim2SF (Vec.x p), Prim2SF (Vec.y p)))) t
  = [[(S754_finite false 5764607522169544 (-59), S754_zero false);
      (S754_finite false 5623870034679751 (-49), S754_zero false)]]
  /\ map (map (fun p => PrimFloat.ltb (Vec.x p) (lit 1 (-2)))) t
     = [[true; false]]
  /\ map (map (fun p => PrimFloat.ltb (lit 999 (-2)) (Vec.x p))) t
     = [[false; true]].
Proof. repeat split; vm_compute; reflexivity. Qed.

End Scenario.

(** ** No guard before the loop *)

Section NoGuard.
Import Gravity Server.
Context {num : Type} `{Number num}.

Lemma simulate_snapshots bodies dt steps jitter (rand : source) :
  forall s, In s (simulate bodies dt steps jitter rand) ->
            length s = length bodies.
Proof.
  intros s Hs. rewrite simulate_spec in Hs.
  apply in_map_iff in Hs. destruct Hs as (k & <- & _).
  rewrite snapshot_length. apply state_after_length.
Qed.

Lemma concat_length_const {A : Type} (n : nat) (t : list (list A)) :
  (forall s, In s t -> length s = n) -> length (concat t) = length t * n.
Proof.
  induction t as [|s t IH]; intros Hn; simpl; auto.
  rewrite length_app, IH.
  - rewrite (Hn s); [reflexivity | now left].
  - intros s' Hs'. apply Hn. now right.
Qed.

Lemma simulate_negative_steps bodies dt steps jitter (rand : source) :
  (steps <= 0)%Z -> simulate bodies dt steps jitter rand = [].
Proof.
  intros Hs. unfold simulate.
  replace (Z.to_nat steps) with O by lia. reflexivity.
Qed.

(** C3, as the code has it.  [simulate] takes no resource limit and checks
    none: for any bound [limit], a call with more than [limit] bodies times
    steps returns the whole trajectory, [steps] snapshots of one position
    per body, that is bodies times steps positions in all, and the handler
    answers 200 with it. *)
Theorem simulate_has_no_resource_limit
    (limit : Z) (bodies : list (Body.t num)) (dt : num) (steps : Z)
    (jitter : num) (rand : source) :
  (0 <= limit < Z.of_nat (length bodies) * steps)%Z ->
  exists t,
    simulate_call bodies dt steps jitter rand = Returns t
    /\ Z.of_nat (length t) = steps
    /\ (forall s, In s t -> length s = length bodies)
    /\ (Z.of_nat (length (concat t)) = Z.of_nat (length bodies) * steps)%Z
    /\ handle_simulate
         (Some (mkPayload (Some bodies) (Some dt) (Some steps) (Some jitter)))
         rand
       = Ok200 t.
Proof.
  intros Hlim. exists (simulate bodies dt steps jitter rand).
  assert (Hsteps : (0 < steps)%Z) by nia.
  pose proof (simulate_length bodies dt steps jitter rand) as Hlen.
  pose proof (@simulate_snapshots bodies dt steps jitter rand) as Hsn.
  repeat split; auto.
  - lia.
  - rewrite (concat_length_const _ Hsn), Hlen. lia.
Qed.

(** C4, as the code has it.  [simulate] validates nothing: on an array of
    bodies, whatever numbers their fields, [dt] and [jitter] hold and
    whatever integer [steps] is, the call throws nothing and returns a
    trajectory, the empty one when [steps] is negative or zero and [steps]
    snapshots of one position per body otherwise. *)
Theorem simulate_validates_nothing
    (bodies : list (Body.t num)) (dt : num) (steps : Z) (jitter : num)
    (rand : source) :
  exists t,
    simulate_call bodies dt steps jitter rand = Returns t
    /\ ((steps <= 0)%Z /\ t = []
        \/ (0 < steps)%Z /\ Z.of_nat (length t) = steps
           /\ forall k, k < length t -> length (nth k t []) = length bodies)
    /\ forall e, simulate_call bodies dt steps jitter rand <> Throws e.
Proof.
  exists (simulate bodies dt steps jitter rand). repeat split.
  - destruct (Z_le_gt_dec steps 0) as [Hs|Hs].
    + left. split; [assumption | now apply simulate_negative_steps].
    + right. rewrite simulate_length. repeat split; try lia.
      intros k Hk. rewrite simulate_nth, snapshot_length by assumption.
      apply state_after_length.
  - intros e. unfold simulate_call. discriminate.
Qed.

End NoGuard.

(** ** The guards the code does not have, at concrete calls *)

Section Unguarded.
Import Gravity Server.

(** Evaluates a one-step call on concrete bodies in exact arithmetic. *)
Ltac one_step_R :=
  rewrite simulate_one_step; cbn [map]; rewrite step_spec; cbn [fst];
  unfold accumulate;
  cbn [length seq fold_left zero_forces map inner_loop Nat.sub apply_pair
       update_nth at_ nth integrate_from snapshot];
  unfold integrate_body, plus_force, minus_force, pair_force, forceMag,
    distSq, dx, dy, G, copy_body;
  cbn [Body.x Body.y Body.vx Body.vy Body.mass Vec.x Vec.y]; to_R.

Lemma moving_body_step (dt : R) (rand : source) :
  simulate [moving_body] dt 1 0%R rand = [[Vec.mk dt 0%R]].
Proof.
  unfold moving_body. one_step_R.
  match goal with
  | |- [[Vec.mk ?a ?b]] = [[Vec.mk ?a' ?b']] =>
      replace a with a' by (field; lra); replace b with b' by (field; lra)
  end.
  reflexivity.
Qed.

(** C3, the claim at a call: with a ceiling of 1 and two bodies times one
    step the call does not fail; it returns the computed trajectory. *)
Lemma resource_limit_not_enforced :
  (1 < Z.of_nat (length two_bodies) * 1)%Z
  /\ simulate_call two_bodies 1%R 1 0%R (fun _ => 0%R)
     = Returns [[Vec.mk scenario_shift 0%R;
                 Vec.mk (10 - scenario_shift)%R 0%R]]
  /\ simulate_call two_bodies 1%R 1 0%R (fun _ => 0%R)
     <> Throws ResourceLimitError.
Proof.
  repeat split.
  - unfold simulate_call. now rewrite scenario_trajectory.
  - discriminate.
Qed.

(** C4, the claim at five calls: a negative [dt], a zero [dt], a negative
    [steps], an infinite coordinate and a NaN velocity (what a missing [vx]
    is in the arithmetic) all return a trajectory. *)
Lemma invalid_input_not_rejected :
  simulate_call [moving_body] (-1)%R 1 0%R (fun _ => 0%R)
  = Returns [[Vec.mk (-1)%R 0%R]]
  /\ simulate_call [moving_body] 0%R 1 0%R (fun _ => 0%R)
     = Returns [[Vec.mk 0%R 0%R]]
  /\ simulate_call [moving_body] 1%R (-3) 0%R (fun _ => 0%R) = Returns []
  /\ simulate_call [float_body 1 infinity 0] 1%float 1 0%float
                   (fun _ => 0%float)
     = Returns [[Vec.mk infinity 0%float]]
  /\ simulate_call [float_body 1 0 nan] 1%float 1 0%float
                   (fun _ => 0%float)
     = Returns [[Vec.mk nan 0%float]].
Proof.
  unfold simulate_call.
  split; [now rewrite moving_body_step|].
  split; [now rewrite moving_body_step|].
  split; [reflexivity|].
  split; vm_compute; reflexivity.
Qed.

(** The handler on a request that gives only [steps]: the defaults are no
    bodies, [dt = 0.1] and [jitter = 0], and the answer is 200 with one empty
    snapshot per step. *)
Lemma handle_simulate_defaults :
  handle_simulate (Some (mkPayload None None (Some 2%Z) None))
                  (fun _ => 0%float)
  = Ok200 [[]; []]
  /\ handle_simulate (num := float) None (fun _ => 0%float) = BadRequest400.
Proof. split; reflexivity. Qed.

End Unguarded.

(** ** Binary64: a zero mass *)

Section ZeroMass.
Import Gravity Server.
Local Open Scope float_scope.

Lemma nan_value_is_nan a : nan_value a -> PrimFloat.is_nan a = true.
Proof.
  unfold nan_value, PrimFloat.is_nan. intros Ha.
  now rewrite FloatAxioms.eqb_spec, Ha.
Qed.

Lemma is_zero_zero_or_nan a : PrimFloat.is_zero a = true -> zero_or_nan a = true.
Proof.
  unfold PrimFloat.is_zero, zero_or_nan. rewrite FloatAxioms.eqb_spec.
  change (Prim2SF PrimFloat.zero) with (S754_zero false).
  destruct (Prim2SF a) as [s| s| |s m e]; simpl; try reflexivity;
    try discriminate; destruct s; discriminate.
Qed.

Lemma is_zero_spec a :
  PrimFloat.is_zero a = true -> exists s, Prim2SF a = S754_zero s.
Proof.
  unfold PrimFloat.is_zero. rewrite FloatAxioms.eqb_spec.
  change (Prim2SF PrimFloat.zero) with (S754_zero false).
  destruct (Prim2SF a) as [s| s| |s m e]; simpl; try discriminate;
    try (destruct s; discriminate).
  intros _. now exists s.
Qed.

Lemma mul_zn_l a b : zero_or_nan a = true -> zero_or_nan (a * b) = true.
Proof.
  unfold zero_or_nan. rewrite mul_spec. unfold SF64mul, SFmul.
  destruct (Prim2SF a), (Prim2SF b); simpl; try discriminate; reflexivity.
Qed.

Lemma mul_zn_r a b : zero_or_nan b = true -> zero_or_nan (a * b) = true.
Proof.
  unfold zero_or_nan. rewrite mul_spec. unfold SF64mul, SFmul.
  destruct (Prim2SF a), (Prim2SF b); simpl; try discriminate; reflexivity.
Qed.

Lemma div_zn_l a b : zero_or_nan a = true -> zero_or_nan (a / b) = true.
Proof.
  unfold zero_or_nan. rewrite div_spec. unfold SF64div, SFdiv.
  destruct (Prim2SF a), (Prim2SF b); simpl; try discriminate; reflexivity.
Qed.

Lemma add_zn a b :
  zero_or_nan a = true -> zero_or_nan b = true -> zero_or_nan (a + b) = true.
Proof.
  unfold zero_or_nan. rewrite add_spec. unfold SF64add, SFadd.
  destruct (Prim2SF a) as [[|]| | |], (Prim2SF b) as [[|]| | |]; simpl;
    try discriminate; reflexivity.
Qed.

Lemma sub_zn a b :
  zero_or_nan a = true -> zero_or_nan b = true -> zero_or_nan (a - b) = true.
Proof.
  unfold zero_or_nan. rewrite sub_spec. unfold SF64sub, SFsub.
  destruct (Prim2SF a) as [[|]| | |], (Prim2SF b) as [[|]| | |]; simpl;
    try discriminate; reflexivity.
Qed.

(** [0 / 0] and [NaN / 0] are NaN. *)
Lemma div_zn_by_zero a m :
  zero_or_nan a = true -> PrimFloat.is_zero m = true -> nan_value (a / m).
Proof.
  unfold zero_or_nan, nan_value. intros Ha Hm.
  destruct (is_zero_spec Hm) as [s Hs].
  rewrite div_spec, Hs. unfold SF64div, SFdiv.
  destruct (Prim2SF a); simpl in *; try discriminate; reflexivity.
Qed.

Lemma mul_nan_l a b : nan_value a -> nan_value (a * b).
Proof.
  unfold nan_value. intros Ha. rewrite mul_spec, Ha. reflexivity.
Qed.

Lemma add_nan_l a b : nan_value a -> nan_value (a + b).
Proof.
  unfold nan_value. intros Ha. rewrite add_spec, Ha. reflexivity.
Qed.

Lemma add_nan_r a b : nan_value b -> nan_value (a + b).
Proof.
  unfold nan_value. intros Hb. rewrite add_spec, Hb.
  unfold SF64add, SFadd. now destruct (Prim2SF a).
Qed.

Lemma lit_0_zn : zero_or_nan (lit 0 0) = true.
Proof. reflexivity. Qed.

Lemma forceMag_zn_l (a b : Body.t float) :
  PrimFloat.is_zero (Body.mass a) = true -> zero_or_nan (forceMag a b) = true.
Proof.
  intros Ha. unfold forceMag. cbn [div mul FloatNumber].
  apply div_zn_l, mul_zn_l, mul_zn_r, is_zero_zero_or_nan, Ha.
Qed.

Lemma forceMag_zn_r (a b : Body.t float) :
  PrimFloat.is_zero (Body.mass b) = true -> zero_or_nan (forceMag a b) = true.
Proof.
  intros Hb. unfold forceMag. cbn [div mul FloatNumber].
  apply div_zn_l, mul_zn_r, is_zero_zero_or_nan, Hb.
Qed.

Lemma pair_force_zn (a b : Body.t float) :
  zero_or_nan (forceMag a b) = true -> zn_vec (pair_force a b).
Proof.
  intros Hf. unfold pair_force, zn_vec. cbn [Vec.x Vec.y mul FloatNumber].
  split; now apply mul_zn_l.
Qed.

Lemma plus_force_zn f v : zn_vec f -> zn_vec v -> zn_vec (plus_force f v).
Proof.
  intros [Hfx Hfy] [Hvx Hvy]. unfold plus_force, zn_vec.
  cbn [Vec.x Vec.y add FloatNumber]. split; now apply add_zn.
Qed.

Lemma minus_force_zn f v : zn_vec f -> zn_vec v -> zn_vec (minus_force f v).
Proof.
  intros [Hfx Hfy] [Hvx Hvy]. unfold minus_force, zn_vec.
  cbn [Vec.x Vec.y sub FloatNumber]. split; now apply sub_zn.
Qed.

(** A property of the element at [i] survives an update at [a] when the
    update keeps it at [a = i]. *)
Lemma nth_update_nth_preserves {A : Type} (P : A -> Prop) (f : A -> A) d i a :
  forall l, P (nth i l d) -> (a = i -> forall v, P v -> P (f v)) ->
            P (nth i (update_nth a f l) d).
Proof.
  intros l Hl Hf. destruct (Nat.eq_dec a i) as [->|Hne].
  - destruct (Nat.lt_ge_cases i (length l)) as [Hi|Hi].
    + rewrite nth_update_nth_eq by assumption. now apply Hf.
    + now rewrite update_nth_out.
  - now rewrite nth_update_nth_neq.
Qed.

Section ForcesOnZeroMass.
Variable state : list (Body.t float).
Variable i : nat.
Hypothesis mass_i : PrimFloat.is_zero (Body.mass (at_ state i)) = true.

#[local] Abbreviation d0 := (Vec.mk (lit (num := float) 0 0) (lit 0 0)).

Lemma apply_pair_zn a b forces :
  zn_vec (nth i forces d0) -> zn_vec (nth i (apply_pair state a b forces) d0).
Proof.
  intros Hi. unfold apply_pair.
  apply nth_update_nth_preserves.
  - apply nth_update_nth_preserves; [assumption|].
    intros -> v Hv. apply plus_force_zn; [|assumption].
    now apply pair_force_zn, forceMag_zn_l.
  - intros -> v Hv. apply minus_force_zn; [|assumption].
    now apply pair_force_zn, forceMag_zn_r.
Qed.

Lemma inner_loop_zn a forces :
  zn_vec (nth i forces d0) -> zn_vec (nth i (inner_loop state a forces) d0).
Proof.
  unfold inner_loop.
  generalize (seq (S a) (length state - S a)) as js. intros js; revert forces.
  induction js as [|j js IH]; intros forces Hi; simpl; auto.
  now apply IH, apply_pair_zn.
Qed.

(** The force accumulated on a body of zero mass is zero or NaN in both
    components: every pair it is in has [forceMag] zero or NaN. *)
Lemma accumulate_zn : zn_vec (nth i (accumulate state) d0).
Proof.
  unfold accumulate.
  assert (Hz : zn_vec (nth i (zero_forces state) d0)).
  { unfold zero_forces. clear mass_i. revert i.
    induction state as [|b st IH]; intros [|j]; simpl;
      try (split; reflexivity); apply IH. }
  revert Hz. generalize (zero_forces state) as forces.
  generalize (seq 0 (length state)) as is_.
  induction is_ as [|a is_ IH]; intros forces Hi; simpl; auto.
  now apply IH, inner_loop_zn.
Qed.

End ForcesOnZeroMass.

Lemma integrate_body_zero_mass dt jitter f r1 r2 (b : Body.t float) :
  zn_vec f -> PrimFloat.is_zero (Body.mass b) = true ->
  nan_body (integrate_body dt jitter f r1 r2 b).
Proof.
  intros [Hx Hy] Hm. unfold integrate_body, nan_body.
  cbn [Body.x Body.y Body.vx Body.vy add sub mul div FloatNumber].
  pose proof (div_zn_by_zero _ Hx Hm) as Hax.
  pose proof (div_zn_by_zero _ Hy Hm) as Hay.
  repeat split.
  - apply add_nan_r, add_nan_l, mul_nan_l, add_nan_r, mul_nan_l, Hax.
  - apply add_nan_r, add_nan_l, mul_nan_l, add_nan_r, mul_nan_l, Hay.
  - apply add_nan_r, mul_nan_l, Hax.
  - apply add_nan_r, mul_nan_l, Hay.
Qed.

(** Body [i] after the integration loop. *)
Lemma nth_integrate_from {num : Type} `{Number num} (dt jitter : num)
    (rand : source) d dF :
  forall (state : list (Body.t num)) (forces : list (Vec.t num)) k i,
    i < length state -> length forces = length state ->
    nth i (integrate_from dt jitter rand forces state k) d
    = integrate_body dt jitter (nth i forces dF)
        (rand (k + 2 * i)%nat) (rand (S (k + 2 * i))) (nth i state d).
Proof.
  induction state as [|b state IH]; intros [|f forces] k [|i] Hi Hlen;
    cbn [length] in *; try lia; cbn [integrate_from nth].
  - now rewrite Nat.mul_0_r, Nat.add_0_r.
  - rewrite IH by lia.
    replace (S (S k) + 2 * i)%nat with (k + 2 * S i)%nat by lia.
    reflexivity.
Qed.

Lemma step_nth {num : Type} `{Number num} (dt jitter : num) (rand : source)
    (state : list (Body.t num)) k i d dF :
  i < length state ->
  nth i (fst (step dt jitter rand (state, k))) d
  = integrate_body dt jitter (nth i (accumulate state) dF)
      (rand (k + 2 * i)%nat) (rand (S (k + 2 * i))) (nth i state d).
Proof.
  intros Hi. rewrite step_spec. cbn [fst].
  apply nth_integrate_from; [assumption | apply accumulate_length].
Qed.

(** No iteration changes a mass. *)
Lemma state_after_mass {num : Type} `{Number num}
    (bodies : list (Body.t num)) dt jitter (rand : source) i :
  i < length bodies ->
  forall k, Body.mass (nth i (state_after bodies dt jitter rand k) body0)
            = Body.mass (nth i bodies body0).
Proof.
  intros Hi. induction k as [|k IH].
  - change (state_after bodies dt jitter rand 0)
      with (map copy_body bodies).
    change (nth i (map copy_body bodies) body0)
      with (nth i (map copy_body bodies) (copy_body (num := num) body0)).
    now rewrite map_nth.
  - unfold state_after in *.
    change (Nat.iter (S k) (step dt jitter rand) (map copy_body bodies, O))
      with (step dt jitter rand
              (Nat.iter k (step dt jitter rand) (map copy_body bodies, O))).
    destruct (Nat.iter k (step dt jitter rand) (map copy_body bodies, O))
      as [state c] eqn:Hit.
    assert (Hlen : length state = length bodies).
    { pose proof (iter_step_length dt jitter rand (map copy_body bodies, O) k)
        as Hl.
      rewrite Hit in Hl. cbn [fst] in Hl. now rewrite Hl, length_map. }
    rewrite (@step_nth _ _ dt jitter rand state c i body0
               (Vec.mk (lit 0 0) (lit 0 0))) by lia.
    cbn [integrate_body Body.mass]. exact IH.
Qed.

(** X4.  No operation of [simulate] changes a mass: body [i] has after any
    number of iterations the mass it was given. *)
Theorem simulate_never_changes_mass {num : Type} `{Number num}
    (bodies : list (Body.t num)) (dt jitter : num) (rand : source)
    (i k : nat) :
  i < length bodies ->
  Body.mass (nth i (state_after bodies dt jitter rand k) body0)
  = Body.mass (nth i bodies body0).
Proof. intros Hi. now apply state_after_mass. Qed.

(** C5, as the code has it.  With a body of zero mass the gravity engine
    raises no error: the call returns its [steps] snapshots, and in every one
    of them both coordinates of the zero-mass body are NaN (its acceleration
    is a zero or NaN force divided by zero). *)
Theorem zero_mass_yields_nan
    (bodies : list (Body.t float)) (dt : float) (steps : Z) (jitter : float)
    (rand : source) (i : nat) :
  i < length bodies ->
  PrimFloat.is_zero (Body.mass (nth i bodies body0)) = true ->
  exists t,
    simulate_call bodies dt steps jitter rand = Returns t
    /\ length t = Z.to_nat steps
    /\ forall k d, k < length t ->
         PrimFloat.is_nan (Vec.x (nth i (nth k t []) d)) = true
         /\ PrimFloat.is_nan (Vec.y (nth i (nth k t []) d)) = true.
Proof.
  intros Hi Hm. exists (simulate bodies dt steps jitter rand).
  split; [reflexivity|]. split; [apply simulate_length|].
  intros k d Hk. rewrite simulate_length in Hk.
  rewrite simulate_nth by assumption.
  rewrite snapshot_nth by now rewrite state_after_length.
  cbn [Vec.x Vec.y].
  change (state_after bodies dt jitter rand (S k))
    with (fst (step dt jitter rand
                 (Nat.iter k (step dt jitter rand) (map copy_body bodies, O)))).
  pose proof (state_after_mass bodies dt jitter rand Hi k) as Hmass.
  pose proof (state_after_length bodies dt jitter rand k) as Hlen.
  revert Hmass Hlen.
  unfold state_after.
  destruct (Nat.iter k (step dt jitter rand) (map copy_body bodies, O))
    as [state c].
  cbn [fst]. intros Hmass Hlen.
  rewrite (@step_nth _ _ dt jitter rand state c i body0
             (Vec.mk (lit 0 0) (lit 0 0))) by lia.
  assert (Hz : PrimFloat.is_zero (Body.mass (at_ state i)) = true)
    by (unfold at_; now rewrite Hmass).
  destruct (@integrate_body_zero_mass dt jitter
              (nth i (accumulate state) (Vec.mk (lit 0 0) (lit 0 0)))
              (rand (c + 2 * i)%nat) (rand (S (c + 2 * i)))
              (nth i state body0) (accumulate_zn state i Hz) Hz)
    as (Hx & Hy & _).
  split; now apply nan_value_is_nan.
Qed.

(** C5, the claim at a call: one body of zero mass at rest at the origin.
    The call does not fail; it returns a position that is NaN. *)
Lemma zero_mass_not_rejected :
  Body.mass (float_body 0 0 0) = 0%float
  /\ simulate_call [float_body 0 0 0] 1%float 1 0%float (fun _ => 0%float)
     = Returns [[Vec.mk nan nan]]
  /\ simulate_call [float_body 0 0 0] 1%float 1 0%float (fun _ => 0%float)
     <> Throws DomainError.
Proof.
  split; [reflexivity|]. split; [vm_compute; reflexivity | discriminate].
Qed.

End ZeroMass.

(** ** The caller's objects *)

Section Frame.
Import Gravity Mem.
Context {num : Type} `{Number num}.
Abbreviation heap := (@Mem.heap num).
Abbreviation obj := (@Mem.obj num).

Lemma extends_refl (h : heap) : extends h h.
Proof. split; auto. Qed.

Lemma extends_trans (h1 h2 h3 : heap) :
  extends h1 h2 -> extends h2 h3 -> extends h1 h3.
Proof.
  intros [Hn Hc] [Hn' Hc']. split; [lia|].
  intros l Hl. rewrite Hc' by lia. now apply Hc.
Qed.

Lemma alloc_extends (o : obj) (h : heap) : extends h (snd (alloc o h)).
Proof.
  unfold alloc, extends. simpl. split; [lia|].
  intros l Hl. destruct (Nat.eqb_spec l (next h)); [lia | reflexivity].
Qed.

(** A write to an object allocated after [h0] leaves the objects of [h0]. *)
Lemma write_extends (h0 h : heap) (l : loc) (o : obj) :
  extends h0 h -> next h0 <= l -> extends h0 (write l o h).
Proof.
  intros [Hn Hc] Hl. unfold write, extends. simpl. split; [assumption|].
  intros l' Hl'. destruct (Nat.eqb_spec l' l); [lia | now apply Hc].
Qed.

Lemma copy_bodies_fresh (h0 : heap) (refs : list loc) :
  forall h state,
    extends h0 h -> fresh h0 h state ->
    let r := fold_left
               (fun '(h', st) r =>
                  let '(l, h'') :=
                    alloc (OBody (copy_body (read_body h' r))) h' in
                  (h'', st ++ [l]))
               refs (h, state) in
    extends h0 (fst r) /\ fresh h0 (fst r) (snd r).
Proof.
  induction refs as [|r refs IH]; intros h state Hext Hfr; simpl; auto.
  apply IH.
  - eapply extends_trans; [exact Hext|].
    apply (alloc_extends (OBody (copy_body (read_body h r))) h).
  - intros l Hl. apply in_app_or in Hl. destruct Hl as [Hl|[<-|[]]].
    + specialize (Hfr l Hl). simpl. lia.
    + destruct Hext as [Hn _]. simpl. lia.
Qed.

Lemma copy_bodies_extends (h : heap) (refs : list loc) :
  extends h (fst (copy_bodies h refs))
  /\ fresh h (fst (copy_bodies h refs)) (snd (copy_bodies h refs)).
Proof.
  unfold copy_bodies.
  apply (@copy_bodies_fresh h refs h [] (extends_refl h)).
  intros l [].
Qed.

Lemma integrate_mem_extends (h0 : heap) dt jitter (rand : source) forces
    (state : list loc) :
  (forall l, In l state -> next h0 <= l) ->
  forall hk, extends h0 (fst hk) ->
             extends h0 (fst (integrate_mem dt jitter rand forces state hk)).
Proof.
  intros Hst. unfold integrate_mem.
  assert (His : forall i, In i (seq 0 (length state)) -> i < length state)
    by (intros i Hi; apply in_seq in Hi; lia).
  revert His. generalize (seq 0 (length state)) as is_.
  induction is_ as [|i is_ IH]; intros His [h k] Hext; simpl; auto.
  apply IH.
  - intros j Hj. apply His. now right.
  - cbn [fst] in *. apply write_extends; [assumption|].
    apply Hst, nth_In, His. now left.
Qed.

Lemma run_mem_extends (h0 : heap) dt jitter (rand : source)
    (state : list loc) :
  (forall l, In l state -> next h0 <= l) ->
  forall n hk trajectories,
    extends h0 (fst hk) ->
    extends h0 (fst (run_mem n dt jitter rand state hk trajectories)).
Proof.
  intros Hst. induction n as [|n IH]; intros hk trajectories Hext; simpl; auto.
  apply IH. unfold step_mem. now apply integrate_mem_extends.
Qed.

(** C6.  A call of [simulate] leaves every object of the caller's heap as it
    was: the array [bodies] and each body object in it (its [mass], [x], [y],
    [vx] and [vy]) after the call are what they were before it.  The loop
    writes only to the objects that [bodies.map] allocated. *)
Theorem simulate_leaves_input_unchanged
    (h : heap) (bodies : loc) (dt : num) (steps : Z) (jitter : num)
    (rand : source) :
  bodies < next h ->
  (forall r, In r (read_array h bodies) -> r < next h) ->
  let h' := fst (simulate_mem h bodies dt steps jitter rand) in
  read_array h' bodies = read_array h bodies
  /\ (forall r, In r (read_array h bodies) -> read_body h' r = read_body h r)
  /\ (forall l, l < next h -> cells h' l = cells h l).
Proof.
  intros Hb Hrefs h'.
  assert (Hext : extends h h').
  { subst h'. unfold simulate_mem.
    destruct (copy_bodies_extends h (read_array h bodies)) as [Hext Hfr].
    destruct (copy_bodies h (read_array h bodies)) as [h1 state].
    cbn [fst snd] in *.
    apply run_mem_extends; [|exact Hext].
    intros l' Hl'. apply Hfr in Hl'. lia. }
  destruct Hext as [_ Hc]. repeat split.
  - unfold read_array. now rewrite Hc.
  - intros r Hr. unfold read_body. now rewrite Hc by auto.
  - exact Hc.
Qed.

End Frame.

(** ** The heap run and the run on values *)

Section Refinement.
Import Gravity Mem.
Context {num : Type} `{Number num}.
Abbreviation heap := (@Mem.heap num).

Lemma read_body_write_eq (h : heap) (l : loc) (b : Body.t num) :
  read_body (write l (OBody b) h) l = b.
Proof. unfold read_body, write. simpl. now rewrite Nat.eqb_refl. Qed.

Lemma read_body_write_neq (h : heap) (l l' : loc) (o : obj) :
  l' <> l -> read_body (write l o h) l' = read_body h l'.
Proof.
  intros Hne. unfold read_body, write. simpl.
  now destruct (Nat.eqb_spec l' l).
Qed.

Lemma load_nth (h : heap) (state : list loc) i :
  i < length state ->
  nth i (load h state) body0 = read_body h (nth i state O).
Proof.
  intros Hi. unfold load.
  rewrite (nth_indep _ body0 (read_body h O)) by now rewrite length_map.
  apply map_nth.
Qed.

Lemma update_nth_const {A : Type} (g : A -> A) d :
  forall (l : list A) i,
    update_nth i g l = update_nth i (fun _ => g (nth i l d)) l.
Proof.
  induction l as [|a l IH]; intros [|i]; simpl; auto. now rewrite <- IH.
Qed.

Lemma update_nth_nth {A : Type} (g : A -> A) d (l : list A) i j :
  nth j (update_nth i g l) d
  = if Nat.eqb i j && Nat.ltb j (length l) then g (nth j l d) else nth j l d.
Proof.
  destruct (Nat.eqb_spec i j) as [->|Hne]; simpl.
  - destruct (Nat.ltb_spec j (length l)).
    + now apply nth_update_nth_eq.
    + now rewrite update_nth_out.
  - now apply nth_update_nth_neq.
Qed.

(** Writing the object of [state[i]] is updating the [i]-th value: the
    objects of [state] are pairwise distinct. *)
Lemma load_write (h : heap) (state : list loc) i (b : Body.t num) :
  NoDup state -> i < length state ->
  load (write (nth i state O) (OBody b) h) state
  = update_nth i (fun _ => b) (load h state).
Proof.
  intros Hnd Hi.
  apply (nth_ext _ _ body0 body0).
  - unfold load. now rewrite update_nth_length, !length_map.
  - intros j Hj. unfold load in Hj. rewrite length_map in Hj.
    rewrite load_nth, update_nth_nth by assumption.
    destruct (Nat.eqb_spec i j) as [->|Hne]; simpl.
    + unfold load at 1. rewrite length_map.
      destruct (Nat.ltb_spec j (length state)); [|lia].
      apply read_body_write_eq.
    + rewrite read_body_write_neq, load_nth; auto.
      intros Heq. apply Hne. symmetry.
      now apply (proj1 (NoDup_nth state O) Hnd).
Qed.

Lemma integrate_mem_spec dt jitter (rand : source) forces
    (state : list loc) :
  NoDup state ->
  forall (h : heap) k,
    let r := integrate_mem dt jitter rand forces state (h, k) in
    (load (fst r) state, snd r)
    = integrate dt jitter rand forces (load h state) k.
Proof.
  intros Hnd h k. unfold integrate_mem, integrate.
  replace (length (load h state)) with (length state)
    by (symmetry; apply length_map).
  assert (His : forall i, In i (seq 0 (length state)) -> i < length state)
    by (intros i Hi; apply in_seq in Hi; lia).
  revert His. generalize (seq 0 (length state)) as is_.
  intros is_; revert h k.
  induction is_ as [|i is_ IH]; intros h k His; cbn [fold_left].
  - reflexivity.
  - cbv zeta. rewrite IH by (intros j Hj; apply His; now right).
    assert (Hi : i < length state) by (apply His; now left).
    rewrite load_write by assumption.
    rewrite (update_nth_const
               (integrate_body dt jitter
                  (nth i forces (Vec.mk (lit 0 0) (lit 0 0)))
                  (rand k) (rand (S k))) body0 (load h state) i).
    now rewrite load_nth.
Qed.

Lemma run_mem_spec dt jitter (rand : source) (state : list loc) :
  NoDup state ->
  forall n (h : heap) k trajectories,
    snd (run_mem n dt jitter rand state (h, k) trajectories)
    = run n dt jitter rand (load h state, k) trajectories.
Proof.
  intros Hnd. induction n as [|n IH]; intros h k trajectories; cbn [run_mem run].
  - reflexivity.
  - pose proof (@integrate_mem_spec dt jitter rand
                  (accumulate (load h state)) state Hnd h k) as Hstep.
    cbv zeta in Hstep. unfold step_mem, step. cbn [fst snd].
    destruct (integrate_mem dt jitter rand (accumulate (load h state))
                            state (h, k)) as [h1 k1].
    cbn [fst snd] in *. rewrite IH, <- Hstep. reflexivity.
Qed.

Lemma read_body_extends (h h1 : heap) (l : loc) :
  extends h h1 -> l < next h -> read_body h1 l = read_body h l.
Proof. intros [_ Hc] Hl. unfold read_body. now rewrite Hc. Qed.

(** [bodies.map] allocates the copies one after the other, each from the
    fields of the caller's object. *)
Lemma copy_bodies_fold (h0 : heap) :
  forall (refs : list loc) (h : heap) (state : list loc),
    extends h0 h ->
    (forall r, In r refs -> r < next h0) ->
    let res := fold_left
                 (fun '(h', st) r =>
                    let '(l, h'') :=
                      alloc (OBody (copy_body (read_body h' r))) h' in
                    (h'', st ++ [l]))
                 refs (h, state) in
    snd res = state ++ seq (next h) (length refs)
    /\ extends h (fst res)
    /\ forall j, j < length refs ->
         read_body (fst res) (next h + j)
         = copy_body (read_body h0 (nth j refs O)).
Proof.
  induction refs as [|r refs IH]; intros h state Hext Hrefs; cbn [fold_left].
  - cbv zeta. cbn [fst snd length seq]. rewrite app_nil_r.
    repeat split; auto. intros j Hj. lia.
  - cbv zeta.
    set (o := OBody (copy_body (read_body h r))).
    pose proof (alloc_extends o h) as Ha.
    change (let '(l, h'') := alloc o h in (h'', state ++ [l]))
      with (snd (alloc o h), state ++ [next h]).
    destruct (IH (snd (alloc o h)) (state ++ [next h])) as (Hst & Hex & Hrd).
    + eapply extends_trans; eassumption.
    + intros r' Hr'. apply Hrefs. now right.
    + cbv zeta in Hst, Hex, Hrd.
      change (next (snd (alloc o h))) with (S (next h)) in *.
      repeat split.
      * rewrite Hst, <- app_assoc. reflexivity.
      * destruct Ha as [Hn Hc], Hex as [Hn' Hc']. lia.
      * intros l Hl. destruct Ha as [Hn Hc], Hex as [Hn' Hc'].
        rewrite Hc' by lia. now apply Hc.
      * intros [|j] Hj; cbn [length nth] in *.
        -- rewrite Nat.add_0_r.
           rewrite (read_body_extends Hex) by (simpl; lia).
           unfold read_body at 1. simpl. rewrite Nat.eqb_refl.
           subst o. cbv iota.
           f_equal. apply read_body_extends; [assumption|].
           apply Hrefs. now left.
        -- replace (next h + S j) with (S (next h) + j) by lia.
           apply Hrd. lia.
Qed.

Lemma load_seq (h : heap) (n : nat) :
  forall (f : nat -> Body.t num) base,
    (forall j, j < n -> read_body h (base + j) = f j) ->
    load h (seq base n) = map f (seq 0 n).
Proof.
  induction n as [|n IH]; intros f base Hrd; cbn [seq load map]; auto.
  f_equal.
  - rewrite <- (Hrd 0) by lia. now rewrite Nat.add_0_r.
  - rewrite <- (seq_shift n 0), map_map.
    apply (IH (fun j => f (S j)) (S base)).
    intros j Hj. rewrite <- (Hrd (S j)) by lia. f_equal. lia.
Qed.

Lemma copy_bodies_load (h : heap) (refs : list loc) :
  (forall r, In r refs -> r < next h) ->
  snd (copy_bodies h refs) = seq (next h) (length refs)
  /\ load (fst (copy_bodies h refs)) (snd (copy_bodies h refs))
     = map copy_body (load h refs).
Proof.
  intros Hrefs. unfold copy_bodies.
  destruct (@copy_bodies_fold h refs h [] (extends_refl h) Hrefs)
    as (Hst & _ & Hrd).
  cbv zeta in Hst, Hrd. cbn [app] in Hst. split; [exact Hst|].
  rewrite Hst.
  rewrite (@load_seq _ (length refs)
             (fun j => copy_body (read_body h (nth j refs O))) (next h) Hrd).
  unfold load. rewrite map_map.
  clear. induction refs as [|r refs IH]; cbn [length seq map]; auto.
  f_equal. rewrite <- seq_shift, map_map. exact IH.
Qed.

(** X1.  The trajectory a call returns from the heap is the one [simulate]
    computes from the values of the caller's bodies, when the array refers
    to objects of the caller. *)
Theorem simulate_mem_trajectory
    (h : heap) (bodies : loc) (dt : num) (steps : Z) (jitter : num)
    (rand : source) :
  (forall r, In r (read_array h bodies) -> r < next h) ->
  snd (simulate_mem h bodies dt steps jitter rand)
  = simulate (load h (read_array h bodies)) dt steps jitter rand.
Proof.
  intros Hrefs. unfold simulate_mem, simulate.
  destruct (copy_bodies_load h (read_array h bodies) Hrefs) as [Hst Hld].
  destruct (copy_bodies h (read_array h bodies)) as [h1 state].
  cbn [fst snd] in *.
  rewrite run_mem_spec by (rewrite Hst; apply seq_NoDup).
  now rewrite Hld.
Qed.

End Refinement.

(** ** The theorems at concrete calls *)

Section Witnesses.
Import Gravity Server Mem.

Lemma two_bodies_masses :
  forall b, In b two_bodies -> Body.mass b <> 0%R.
Proof. intros b [<-|[<-|[]]]; simpl; lra. Qed.

(** C7 at the two-body scenario run for two steps. *)
Lemma simulate_records_each_step_witness :
  (0 <= 2)%Z
  /\ Z.of_nat (length (simulate two_bodies 1%R 2 0%R (fun _ => 0%R))) = 2%Z.
Proof.
  split; [lia|].
  exact (proj1 (@simulate_records_each_step R _ two_bodies 1%R 2 0%R
                  (fun _ => 0%R) ltac:(lia))).
Defined.

(** C8 in binary64 at two sources, below and above one half. *)
Lemma simulate_zero_jitter_deterministic_witness :
  centred (fun _ => SF2Prim (S754_finite false 1 (-2)))
  /\ centred (fun _ => SF2Prim (S754_finite false 3 (-2)))
  /\ Forall2 (Forall2 js_equal_vec)
       (simulate [negative_zero_body] 1%float 1 0%float
                 (fun _ => SF2Prim (S754_finite false 1 (-2))))
       (simulate [negative_zero_body] 1%float 1 0%float
                 (fun _ => SF2Prim (S754_finite false 3 (-2)))).
Proof.
  assert (H1 : centred (fun _ => SF2Prim (S754_finite false 1 (-2))))
    by (intros k; reflexivity).
  assert (H3 : centred (fun _ => SF2Prim (S754_finite false 3 (-2))))
    by (intros k; reflexivity).
  split; [exact H1|]. split; [exact H3|].
  exact (proj2 simulate_zero_jitter_deterministic [negative_zero_body]
               1%float 1%Z _ _ H1 H3).
Defined.

(** C9 at the pair of the two-body scenario. *)
Lemma pair_forces_equal_and_opposite_witness :
  (0 < 1 < length [Vec.mk 0%R 0%R; Vec.mk 0%R 0%R])
  /\ vdelta (nth 1 (Gravity.apply_pair two_bodies 0 1
                      [Vec.mk 0%R 0%R; Vec.mk 0%R 0%R]) (Vec.mk 0%R 0%R))
            (Vec.mk 0%R 0%R)
     = vopp (vdelta (nth 0 (Gravity.apply_pair two_bodies 0 1
                              [Vec.mk 0%R 0%R; Vec.mk 0%R 0%R])
                           (Vec.mk 0%R 0%R))
                    (Vec.mk 0%R 0%R)).
Proof.
  split; [simpl; lia|].
  exact (proj1 (proj2 (proj1 pair_forces_equal_and_opposite two_bodies
                         [Vec.mk 0%R 0%R; Vec.mk 0%R 0%R] 0 1
                         (Vec.mk 0%R 0%R) ltac:(simpl; lia)))).
Defined.

(** C10 at the two-body scenario. *)
Lemma step_conserves_momentum_witness :
  (forall b, In b two_bodies -> Body.mass b <> 0%R)
  /\ momentum_x (fst (step 1%R 0%R (fun _ => 0%R) (two_bodies, O)))
     = momentum_x two_bodies.
Proof.
  split; [exact two_bodies_masses|].
  exact (proj1 (@step_conserves_momentum two_bodies O 1%R 0%R (fun _ => 0%R)
                  two_bodies_masses)).
Defined.

(** C3 at a ceiling of 1 and two bodies times one step. *)
Lemma simulate_has_no_resource_limit_witness :
  (0 <= 1 < Z.of_nat (length two_bodies) * 1)%Z
  /\ exists t,
       simulate_call two_bodies 1%R 1 0%R (fun _ => 0%R) = Returns t
       /\ Z.of_nat (length t) = 1%Z.
Proof.
  split; [simpl; lia|].
  destruct (@simulate_has_no_resource_limit R _ 1 two_bodies 1%R 1 0%R
              (fun _ => 0%R) ltac:(simpl; lia)) as (t & Hc & Hl & _).
  exists t. split; assumption.
Defined.

(** C5 at one body of zero mass. *)
Lemma zero_mass_yields_nan_witness :
  0 < length [float_body 0 0 0]
  /\ PrimFloat.is_zero (Body.mass (nth 0 [float_body 0 0 0] body0)) = true
  /\ exists t,
       simulate_call [float_body 0 0 0] 1%float 3 0%float (fun _ => 0%float)
       = Returns t
       /\ length t = 3.
Proof.
  split; [simpl; lia|]. split; [reflexivity|].
  destruct (@zero_mass_yields_nan [float_body 0 0 0] 1%float 3 0%float
              (fun _ => 0%float) 0 ltac:(simpl; lia) eq_refl)
    as (t & Hc & Hl & _).
  exists t. split; assumption.
Defined.

Lemma caller_heap_refs :
  forall r, In r (read_array caller_heap 2) -> r < next caller_heap.
Proof. intros r [<-|[<-|[]]]; simpl; lia. Qed.

(** C6 at the caller's heap above. *)
Lemma simulate_leaves_input_unchanged_witness :
  2 < next caller_heap
  /\ read_array (fst (simulate_mem caller_heap 2 1%R 5 0%R (fun _ => 0%R))) 2
     = [0; 1]
  /\ read_body (fst (simulate_mem caller_heap 2 1%R 5 0%R (fun _ => 0%R))) 1
     = body_at_ten.
Proof.
  split; [simpl; lia|].
  destruct (@simulate_leaves_input_unchanged R _ caller_heap 2 1%R 5 0%R
              (fun _ => 0%R) ltac:(simpl; lia) caller_heap_refs)
    as (Ha & Hb & _).
  split; [exact Ha|]. apply (Hb 1). simpl. auto.
Defined.

(** X1 at the caller's heap above. *)
Lemma simulate_mem_trajectory_witness :
  (forall r, In r (read_array caller_heap 2) -> r < next caller_heap)
  /\ snd (simulate_mem caller_heap 2 1%R 5 0%R (fun _ => 0%R))
     = simulate two_bodies 1%R 5 0%R (fun _ => 0%R).
Proof.
  split; [exact caller_heap_refs|].
  exact (@simulate_mem_trajectory R _ caller_heap 2 1%R 5 0%R (fun _ => 0%R)
           caller_heap_refs).
Defined.

(** X4 at the second body of the scenario after three iterations. *)
Lemma simulate_never_changes_mass_witness :
  1 < length two_bodies
  /\ Body.mass (nth 1 (state_after two_bodies 1%R 0%R (fun _ => 0%R) 3) body0)
     = 1%R.
Proof.
  split; [simpl; lia|].
  exact (@simulate_never_changes_mass R _ two_bodies 1%R 0%R (fun _ => 0%R)
           1 3 ltac:(simpl; lia)).
Defined.

End Witnesses.

(** ** More of [simulate] *)

Section RunShape.
Import Gravity.
Context {num : Type} `{Number num}.

Lemma firstn_seq_le (n m start : nat) :
  n <= m -> firstn n (seq start m) = seq start n.
Proof.
  revert m start. induction n as [|n IH]; intros [|m] start Hnm;
    simpl; try lia; auto.
  f_equal. apply IH. lia.
Qed.

(** X5.  Asking for more steps only appends snapshots: the trajectory of
    [n] steps is the first [n] snapshots of the trajectory of any larger
    number of steps, for the same bodies, [dt], jitter and random values. *)
Theorem simulate_prefix
    (bodies : list (Body.t num)) (dt : num) (n n' : Z) (jitter : num)
    (rand : source) :
  (0 <= n <= n')%Z ->
  firstn (Z.to_nat n) (simulate bodies dt n' jitter rand)
  = simulate bodies dt n jitter rand.
Proof.
  intros Hn. rewrite !simulate_spec, firstn_map.
  now rewrite firstn_seq_le by lia.
Qed.

Lemma state_after_no_bodies dt jitter (rand : source) k :
  state_after ([] : list (Body.t num)) dt jitter rand k = [].
Proof.
  apply length_zero_iff_nil. now rewrite state_after_length.
Qed.

(** X6.  With no bodies every snapshot is empty: the result is [steps]
    empty arrays. *)
Theorem simulate_no_bodies (dt : num) (steps : Z) (jitter : num)
    (rand : source) :
  simulate [] dt steps jitter rand = repeat [] (Z.to_nat steps).
Proof.
  rewrite simulate_spec.
  generalize 0 at 1. induction (Z.to_nat steps) as [|n IH]; intros s;
    simpl; auto.
  rewrite state_after_no_bodies. f_equal. apply IH.
Qed.

End RunShape.

Section RunExact.
Import Gravity.
Local Open Scope R_scope.

(** The state of a lone body after [k] iterations without jitter. *)
Lemma lone_body_state (b : Body.t R) (dt : R) (rand : source) (k : nat) :
  Body.mass b <> 0 ->
  state_after [b] dt 0 rand k
  = [Body.mk (Body.mass b)
             (Body.x b + INR k * (Body.vx b * dt))
             (Body.y b + INR k * (Body.vy b * dt))
             (Body.vx b) (Body.vy b)].
Proof.
  intros Hm. induction k as [|k IH].
  - change (state_after [b] dt 0 rand 0) with [copy_body b].
    unfold copy_body. simpl INR. apply (f_equal (fun c => [c])).
    f_equal; ring.
  - unfold state_after in *.
    change (Nat.iter (S k) (step dt 0 rand) (map copy_body [b], O))
      with (step dt 0 rand
              (Nat.iter k (step dt 0 rand) (map copy_body [b], O))).
    destruct (Nat.iter k (step dt 0 rand) (map copy_body [b], O))
      as [state c].
    cbn [fst] in IH. subst state. rewrite step_spec. cbn [fst].
    unfold accumulate.
    cbn [length seq fold_left zero_forces map inner_loop Nat.sub
         integrate_from].
    unfold integrate_body.
    cbn [Body.x Body.y Body.vx Body.vy Body.mass Vec.x Vec.y]. to_R.
    rewrite S_INR. apply (f_equal (fun c => [c])).
    f_equal; field; exact Hm.
Qed.

(** X7.  A lone body feels no force: without jitter it moves uniformly, and
    snapshot [k] holds [(x + (k+1) vx dt, y + (k+1) vy dt)]. *)
Theorem lone_body_moves_uniformly
    (b : Body.t R) (dt : R) (steps : Z) (rand : source) (k : nat) :
  Body.mass b <> 0 ->
  (k < Z.to_nat steps)%nat ->
  nth k (simulate [b] dt steps 0 rand) []
  = [Vec.mk (Body.x b + INR (S k) * (Body.vx b * dt))
            (Body.y b + INR (S k) * (Body.vy b * dt))].
Proof.
  intros Hm Hk. rewrite simulate_nth by assumption.
  now rewrite lone_body_state.
Qed.

Lemma integrate_body_frozen f r1 r2 (b : Body.t R) :
  integrate_body 0 0 f r1 r2 b = b.
Proof.
  destruct b as [m x0 y0 vx0 vy0]. unfold integrate_body.
  cbn [Body.x Body.y Body.vx Body.vy Body.mass]. to_R.
  f_equal; ring.
Qed.

Lemma integrate_from_frozen (rand : source) :
  forall state forces k, integrate_from 0 0 rand forces state k = state.
Proof.
  induction state as [|b state IH]; intros [|f forces] k; simpl; auto.
  now rewrite integrate_body_frozen, IH.
Qed.

(** X8.  With [dt = 0] and no jitter time stands still: every snapshot holds
    the positions the bodies were given (the masses are non-zero: the loop
    divides by them). *)
Theorem simulate_zero_dt_freezes
    (bodies : list (Body.t R)) (steps : Z) (rand : source) (k : nat) :
  (forall b, In b bodies -> Body.mass b <> 0) ->
  (k < Z.to_nat steps)%nat ->
  nth k (simulate bodies 0 steps 0 rand) [] = snapshot bodies.
Proof.
  intros _ Hk. rewrite simulate_nth by assumption.
  assert (Hst : forall n, state_after bodies 0 0 rand n = map copy_body bodies).
  { induction n as [|n IH]; [reflexivity|].
    unfold state_after in *.
    change (Nat.iter (S n) (step 0 0 rand) (map copy_body bodies, O))
      with (step 0 0 rand
              (Nat.iter n (step 0 0 rand) (map copy_body bodies, O))).
    destruct (Nat.iter n (step 0 0 rand) (map copy_body bodies, O))
      as [state c].
    cbn [fst] in IH. subst state. rewrite step_spec. cbn [fst].
    apply integrate_from_frozen. }
  rewrite Hst. unfold snapshot. rewrite map_map. reflexivity.
Qed.

(** X9.  Jitter moves a position by at most half its amplitude per axis
    and step: for random values in [0, 1), the new position of a body [i]
    of non-zero mass (the loop divides by it) is within [|jitter| / 2] of
    the Euler position [x + vx' * dt] computed from its new velocity. *)
Theorem jitter_displacement_bounded
    (state : list (Body.t R)) (calls : nat) (dt jitter : R) (rand : source)
    (i : nat) :
  unit_source rand ->
  (i < length state)%nat ->
  Body.mass (nth i state body0) <> 0 ->
  let b := nth i state body0 in
  let b' := nth i (fst (step dt jitter rand (state, calls))) body0 in
  Rabs (Body.x b' - (Body.x b + Body.vx b' * dt)) <= Rabs jitter / 2
  /\ Rabs (Body.y b' - (Body.y b + Body.vy b' * dt)) <= Rabs jitter / 2.
Proof.
  intros Hr Hi _ b b'. subst b b'.
  rewrite (@step_nth _ _ dt jitter rand state calls i body0 (Vec.mk 0 0))
    by assumption.
  unfold integrate_body.
  cbn [Body.x Body.y Body.vx Body.vy Body.mass]. to_R.
  set (vx' := Body.vx (nth i state body0) + _).
  set (vy' := Body.vy (nth i state body0) + _).
  assert (Hj : forall r, 0 <= r < 1 ->
                 Rabs ((r - 5 / 10) * jitter) <= Rabs jitter / 2).
  { intros r Hr01. rewrite Rabs_mult.
    assert (Rabs (r - 5 / 10) <= 1 / 2)
      by (apply Rabs_le; lra).
    pose proof (Rabs_pos jitter). nra. }
  split.
  - replace (Body.x (nth i state body0)
             + (vx' * dt + (rand (calls + 2 * i)%nat - 5 / 10) * jitter)
             - (Body.x (nth i state body0) + vx' * dt))
      with ((rand (calls + 2 * i)%nat - 5 / 10) * jitter) by ring.
    apply Hj, Hr.
  - replace (Body.y (nth i state body0)
             + (vy' * dt + (rand (S (calls + 2 * i)) - 5 / 10) * jitter)
             - (Body.y (nth i state body0) + vy' * dt))
      with ((rand (S (calls + 2 * i)) - 5 / 10) * jitter) by ring.
    apply Hj, Hr.
Qed.

Lemma gravity_dist_pos (a b : Body.t R) :
  0 < R_sqrt.sqrt (distSq a b).
Proof. apply sqrt_lt_R0, gravity_distSq_pos. Qed.

(** X10.  Gravity attracts: for positive masses the force added to the
    accumulator of [a] for the pair ([a], [b]) is a positive multiple of the
    separation [(dx, dy)] from [a] to [b] (and [b] receives its opposite). *)
Theorem gravity_is_attractive (a b : Body.t R) :
  0 < Body.mass a -> 0 < Body.mass b ->
  exists c, 0 < c
    /\ Vec.x (pair_force a b) = c * (Body.x b - Body.x a)
    /\ Vec.y (pair_force a b) = c * (Body.y b - Body.y a).
Proof.
  intros Ha Hb.
  pose proof (gravity_distSq_pos a b) as Hd.
  pose proof (gravity_dist_pos a b) as Hs.
  exists (forceMag a b / R_sqrt.sqrt (distSq a b)).
  assert (Hf : 0 < forceMag a b).
  { unfold forceMag, G. to_R. apply Rdiv_lt_0_compat; [nra | exact Hd]. }
  split; [now apply Rdiv_lt_0_compat|].
  unfold pair_force, dx, dy. cbn [Vec.x Vec.y]. to_R.
  split; field; lra.
Qed.

(** X11.  The softening bounds the gravitational force: for positive masses
    [forceMag] is positive, at most [m1 * m2 * 1e8] however close the bodies
    are, and below the inverse-square value: [forceMag * |d|^2 < m1 * m2]. *)
Theorem gravity_forceMag_bounded (a b : Body.t R) :
  0 < Body.mass a -> 0 < Body.mass b ->
  0 < forceMag a b <= Body.mass a * Body.mass b * 100000000
  /\ forceMag a b
     * sep_sq (Body.x a) (Body.y a) (Body.x b) (Body.y b)
     < Body.mass a * Body.mass b.
Proof.
  intros Ha Hb.
  pose proof (sep_sq_nonneg (Body.x a) (Body.y a) (Body.x b) (Body.y b))
    as Hsep.
  unfold forceMag, G. rewrite gravity_distSq_eq. to_R.
  set (d2 := sep_sq _ _ _ _) in *.
  set (mm := 1 * Body.mass a * Body.mass b).
  assert (Hmm : 0 < mm) by (unfold mm; nra).
  assert (Hd : 0 < d2 + 1 / 100000000) by lra.
  replace (Body.mass a * Body.mass b) with mm by (unfold mm; ring).
  repeat split.
  - now apply Rdiv_lt_0_compat.
  - apply Rmult_le_reg_r with (d2 + 1 / 100000000); [exact Hd|].
    replace (mm / (d2 + 1 / 100000000) * (d2 + 1 / 100000000)) with mm
      by (field; lra).
    nra.
  - apply Rmult_lt_reg_r with (d2 + 1 / 100000000); [exact Hd|].
    replace (mm / (d2 + 1 / 100000000) * d2 * (d2 + 1 / 100000000))
      with (mm * d2) by (field; lra).
    nra.
Qed.

Lemma state_after_masses (bodies : list (Body.t R)) dt jitter
    (rand : source) (k : nat) :
  (forall b, In b bodies -> Body.mass b <> 0) ->
  forall b, In b (state_after bodies dt jitter rand k) -> Body.mass b <> 0.
Proof.
  intros Hm b Hb.
  apply (In_nth _ _ body0) in Hb. destruct Hb as (i & Hi & <-).
  rewrite state_after_length in Hi.
  rewrite state_after_mass by assumption.
  apply Hm, nth_In, Hi.
Qed.

Lemma copy_body_momentum (bodies : list (Body.t R)) :
  momentum_x (map copy_body bodies) = momentum_x bodies
  /\ momentum_y (map copy_body bodies) = momentum_y bodies.
Proof.
  induction bodies as [|b bodies [IHx IHy]]; simpl; auto.
  now rewrite IHx, IHy.
Qed.

(** X12.  Total momentum is conserved along the whole run: in exact
    arithmetic, with every mass non-zero, the state after any number of
    iterations has the total momentum of the bodies given, for any [dt],
    jitter and random values. *)
Theorem simulate_conserves_momentum
    (bodies : list (Body.t R)) (dt jitter : R) (rand : source) (k : nat) :
  (forall b, In b bodies -> Body.mass b <> 0) ->
  momentum_x (state_after bodies dt jitter rand k) = momentum_x bodies
  /\ momentum_y (state_after bodies dt jitter rand k) = momentum_y bodies.
Proof.
  intros Hm. induction k as [|k [IHx IHy]].
  - apply copy_body_momentum.
  - pose proof (state_after_masses bodies dt jitter rand k Hm) as Hmk.
    revert IHx IHy Hmk. unfold state_after.
    change (Nat.iter (S k) (step dt jitter rand) (map copy_body bodies, O))
      with (step dt jitter rand
              (Nat.iter k (step dt jitter rand) (map copy_body bodies, O))).
    destruct (Nat.iter k (step dt jitter rand) (map copy_body bodies, O))
      as [state c].
    cbn [fst]. intros IHx IHy Hmk. rewrite step_spec. cbn [fst].
    destruct (@integrate_from_momentum dt jitter rand state
                (accumulate state) c (accumulate_length state) Hmk)
      as [Hx Hy].
    destruct (accumulate_sum state) as [Sx Sy].
    rewrite Hx, Hy, Sx, Sy, IHx, IHy. split; ring.
Qed.

End RunExact.

(** ** Binary64: a NaN coordinate *)

Section Poison.
Import Gravity.
Local Open Scope float_scope.

Lemma is_nan_nan_value a : PrimFloat.is_nan a = true -> nan_value a.
Proof.
  unfold PrimFloat.is_nan, nan_value. rewrite FloatAxioms.eqb_spec.
  unfold SFeqb. intros Hn.
  destruct (Prim2SF a) eqn:Ha; try reflexivity;
    rewrite SFcompare_refl in Hn by discriminate; discriminate.
Qed.

Lemma sub_nan_l a b : nan_value a -> nan_value (a - b).
Proof. unfold nan_value. intros Ha. rewrite sub_spec, Ha. reflexivity. Qed.

Lemma sub_nan_r a b : nan_value b -> nan_value (a - b).
Proof.
  unfold nan_value. intros Hb. rewrite sub_spec, Hb.
  unfold SF64sub, SFsub. now destruct (Prim2SF a).
Qed.

Lemma div_nan_l a b : nan_value a -> nan_value (a / b).
Proof. unfold nan_value. intros Ha. rewrite div_spec, Ha. reflexivity. Qed.

Lemma div_nan_r a b : nan_value b -> nan_value (a / b).
Proof.
  unfold nan_value. intros Hb. rewrite div_spec, Hb.
  unfold SF64div, SFdiv. now destruct (Prim2SF a).
Qed.

Lemma mul_nan_r a b : nan_value b -> nan_value (a * b).
Proof.
  unfold nan_value. intros Hb. rewrite mul_spec, Hb.
  unfold SF64mul, SFmul. now destruct (Prim2SF a).
Qed.

(** A NaN coordinate of either body makes [distSq], and with it the whole
    force of the pair, NaN. *)
Lemma distSq_nan (a b : Body.t float) :
  nan_position a \/ nan_position b -> nan_value (distSq a b).
Proof.
  intros Hab. unfold distSq, dx, dy. cbn [add sub mul FloatNumber].
  apply add_nan_l.
  destruct Hab as [[Hx|Hy]|[Hx|Hy]].
  - apply add_nan_l, mul_nan_l, sub_nan_r, Hx.
  - apply add_nan_r, mul_nan_l, sub_nan_r, Hy.
  - apply add_nan_l, mul_nan_l, sub_nan_l, Hx.
  - apply add_nan_r, mul_nan_l, sub_nan_l, Hy.
Qed.

Lemma pair_force_nan (a b : Body.t float) :
  nan_position a \/ nan_position b -> nan_vec (pair_force a b).
Proof.
  intros Hab. pose proof (distSq_nan Hab) as Hd.
  unfold pair_force, forceMag, nan_vec.
  cbn [Vec.x Vec.y mul div FloatNumber].
  split; apply mul_nan_l, div_nan_r, Hd.
Qed.

Lemma plus_force_nan f v : nan_vec f \/ nan_vec v -> nan_vec (plus_force f v).
Proof.
  unfold plus_force, nan_vec. cbn [Vec.x Vec.y add FloatNumber].
  intros [[Hx Hy]|[Hx Hy]]; split;
    first [now apply add_nan_r | now apply add_nan_l].
Qed.

Lemma minus_force_nan f v :
  nan_vec f \/ nan_vec v -> nan_vec (minus_force f v).
Proof.
  unfold minus_force, nan_vec. cbn [Vec.x Vec.y sub FloatNumber].
  intros [[Hx Hy]|[Hx Hy]]; split;
    first [now apply sub_nan_r | now apply sub_nan_l].
Qed.

(** A fold reaches a property that one of its steps establishes and all
    steps keep, under an invariant of the accumulator. *)
Lemma fold_left_establishes {A B : Type} (f : A -> B -> A)
    (Q P : A -> Prop) (x : B) :
  (forall s y, Q s -> Q (f s y)) ->
  (forall s y, P s -> P (f s y)) ->
  (forall s, Q s -> P (f s x)) ->
  forall l s, In x l -> Q s -> P (fold_left f l s).
Proof.
  intros HQ HP Hx.
  assert (Hkeep : forall l s, P s -> P (fold_left f l s)).
  { induction l as [|y l IH]; intros s Hs; simpl; auto. }
  induction l as [|y l IH]; intros s Hin Hs; simpl in *; [contradiction|].
  destruct Hin as [->|Hin].
  - apply Hkeep, Hx, Hs.
  - apply IH; auto.
Qed.

Section ForcesWithNaN.
Variable state : list (Body.t float).
#[local] Abbreviation v0 := (Vec.mk (lit (num := float) 0 0) (lit 0 0)).

Lemma apply_pair_keeps_nan t a b forces :
  nan_vec (nth t forces v0) -> nan_vec (nth t (apply_pair state a b forces) v0).
Proof.
  intros Ht. unfold apply_pair.
  apply nth_update_nth_preserves.
  - apply nth_update_nth_preserves; [assumption|].
    intros _ v Hv. apply plus_force_nan. now right.
  - intros _ v Hv. apply minus_force_nan. now right.
Qed.

Lemma inner_loop_keeps_nan t a forces :
  nan_vec (nth t forces v0) -> nan_vec (nth t (inner_loop state a forces) v0).
Proof.
  unfold inner_loop.
  generalize (seq (S a) (length state - S a)) as js. intros js; revert forces.
  induction js as [|j js IH]; intros forces Ht; simpl; auto.
  now apply IH, apply_pair_keeps_nan.
Qed.

(** The pair ([a], [b]) with a NaN coordinate leaves NaN in both
    accumulators. *)
Lemma apply_pair_sets_nan t a b forces :
  a < b < length forces -> t = a \/ t = b ->
  nan_position (at_ state a) \/ nan_position (at_ state b) ->
  nan_vec (nth t (apply_pair state a b forces) v0).
Proof.
  intros Hab Ht Hnan. pose proof (pair_force_nan Hnan) as Hf.
  destruct (gravity_apply_pair_nth state forces v0 Hab) as (Ha & Hb & _).
  destruct Ht as [-> | ->].
  - rewrite Ha. apply plus_force_nan. now left.
  - rewrite Hb. apply minus_force_nan. now left.
Qed.

Lemma inner_loop_sets_nan t a b forces :
  a < b < length state -> length forces = length state -> t = a \/ t = b ->
  nan_position (at_ state a) \/ nan_position (at_ state b) ->
  nan_vec (nth t (inner_loop state a forces) v0).
Proof.
  intros Hab Hlen Ht Hnan. unfold inner_loop.
  apply (@fold_left_establishes _ _ (fun fs j => apply_pair state a j fs)
           (fun fs => length fs = length state)
           (fun fs => nan_vec (nth t fs v0)) b).
  - intros s y Hs. now rewrite apply_pair_length.
  - intros s y. apply apply_pair_keeps_nan.
  - intros s Hs. apply apply_pair_sets_nan; auto. lia.
  - apply in_seq. lia.
  - exact Hlen.
Qed.

Lemma accumulate_sets_nan t a b :
  a < b < length state -> t = a \/ t = b ->
  nan_position (at_ state a) \/ nan_position (at_ state b) ->
  nan_vec (nth t (accumulate state) v0).
Proof.
  intros Hab Ht Hnan. unfold accumulate.
  apply (@fold_left_establishes _ _ (fun fs i => inner_loop state i fs)
           (fun fs => length fs = length state)
           (fun fs => nan_vec (nth t fs v0)) a).
  - intros s y Hs. now rewrite inner_loop_length.
  - intros s y. apply inner_loop_keeps_nan.
  - intros s Hs. now apply inner_loop_sets_nan with b.
  - apply in_seq. lia.
  - apply length_map.
Qed.

(** With two bodies or more, one NaN coordinate makes every accumulated
    force NaN. *)
Lemma accumulate_all_nan i t :
  2 <= length state -> i < length state -> t < length state ->
  nan_position (at_ state i) ->
  nan_vec (nth t (accumulate state) v0).
Proof.
  intros Hn Hi Ht Hnan.
  destruct (Nat.lt_trichotomy t i) as [Hlt|[->|Hgt]].
  - apply accumulate_sets_nan with t i; auto.
  - destruct i as [|i].
    + apply accumulate_sets_nan with 0%nat 1%nat; auto; lia.
    + apply accumulate_sets_nan with 0%nat (S i); auto; lia.
  - apply accumulate_sets_nan with i t; auto.
Qed.

End ForcesWithNaN.

Lemma integrate_body_nan dt jitter f r1 r2 (b : Body.t float) :
  nan_vec f -> nan_body (integrate_body dt jitter f r1 r2 b).
Proof.
  intros [Hx Hy]. unfold integrate_body, nan_body.
  cbn [Body.x Body.y Body.vx Body.vy add sub mul div FloatNumber].
  pose proof (div_nan_l (Body.mass b) Hx) as Hax.
  pose proof (div_nan_l (Body.mass b) Hy) as Hay.
  repeat split.
  - apply add_nan_r, add_nan_l, mul_nan_l, add_nan_r, mul_nan_l, Hax.
  - apply add_nan_r, add_nan_l, mul_nan_l, add_nan_r, mul_nan_l, Hay.
  - apply add_nan_r, mul_nan_l, Hax.
  - apply add_nan_r, mul_nan_l, Hay.
Qed.

Lemma step_all_nan dt jitter (rand : source) state c i :
  2 <= length state -> i < length state ->
  nan_position (nth i state body0) ->
  all_nan (fst (step dt jitter rand (state, c))).
Proof.
  intros Hn Hi Hnan j Hj. rewrite step_length in Hj. cbn [fst] in Hj.
  rewrite (@step_nth _ _ dt jitter rand state c j body0
             (Vec.mk (lit 0 0) (lit 0 0))) by assumption.
  apply integrate_body_nan.
  now apply accumulate_all_nan with i.
Qed.

Lemma state_after_all_nan bodies dt jitter (rand : source) i :
  2 <= length bodies -> i < length bodies ->
  nan_position (nth i bodies body0) ->
  forall k, all_nan (state_after bodies dt jitter rand (S k)).
Proof.
  intros Hn Hi Hnan k.
  assert (Hcopy : nan_position (nth i (map copy_body bodies) body0)).
  { change body0 with (copy_body (num := float) body0).
    rewrite map_nth. exact Hnan. }
  assert (Hk : exists i', i' < length bodies
               /\ nan_position (nth i' (state_after bodies dt jitter rand k)
                                    body0)).
  { induction k as [|k IH].
    - exists i. split; assumption.
    - destruct IH as (i' & Hi' & Hn').
      exists i'. split; [assumption|].
      unfold state_after in *.
      change (Nat.iter (S k) (step dt jitter rand) (map copy_body bodies, O))
        with (step dt jitter rand
                (Nat.iter k (step dt jitter rand) (map copy_body bodies, O))).
      pose proof (iter_step_length dt jitter rand (map copy_body bodies, O) k)
        as Hlen.
      destruct (Nat.iter k (step dt jitter rand) (map copy_body bodies, O))
        as [state c].
      cbn [fst] in *. rewrite length_map in Hlen.
      destruct (@step_all_nan dt jitter rand state c i') with (j := i')
        as (Hx & _); try lia; try assumption.
      + rewrite step_length. cbn [fst]. lia.
      + now left. }
  destruct Hk as (i' & Hi' & Hn').
  unfold state_after in *.
  change (Nat.iter (S k) (step dt jitter rand) (map copy_body bodies, O))
    with (step dt jitter rand
            (Nat.iter k (step dt jitter rand) (map copy_body bodies, O))).
  pose proof (iter_step_length dt jitter rand (map copy_body bodies, O) k)
    as Hlen.
  destruct (Nat.iter k (step dt jitter rand) (map copy_body bodies, O))
    as [state c].
  cbn [fst] in *. rewrite length_map in Hlen.
  apply step_all_nan with i'; try lia. assumption.
Qed.

(** X13.  One NaN poisons the whole trajectory: with two bodies or more, if
    some body is given a NaN [x] or [y], then in every snapshot both
    coordinates of every body are NaN. *)
Theorem nan_poisons_trajectory
    (bodies : list (Body.t float)) (dt : float) (steps : Z) (jitter : float)
    (rand : source) (i : nat) :
  2 <= length bodies -> i < length bodies ->
  PrimFloat.is_nan (Body.x (nth i bodies body0))
  || PrimFloat.is_nan (Body.y (nth i bodies body0)) = true ->
  forall k j d,
    k < Z.to_nat steps -> j < length bodies ->
    PrimFloat.is_nan
      (Vec.x (nth j (nth k (simulate bodies dt steps jitter rand) []) d))
    = true
    /\ PrimFloat.is_nan
         (Vec.y (nth j (nth k (simulate bodies dt steps jitter rand) []) d))
       = true.
Proof.
  intros Hn Hi Hnan k j d Hk Hj.
  assert (Hpos : nan_position (nth i bodies body0)).
  { apply orb_true_iff in Hnan.
    destruct Hnan as [Hx|Hy]; [left|right]; now apply is_nan_nan_value. }
  rewrite simulate_nth by assumption.
  rewrite snapshot_nth by now rewrite state_after_length.
  cbn [Vec.x Vec.y].
  destruct (@state_after_all_nan bodies dt jitter rand i Hn Hi Hpos k j)
    as (Hx & Hy & _); [now rewrite state_after_length|].
  split; now apply nan_value_is_nan.
Qed.

End Poison.

(** ** The handler and the routes *)

Section HandlerShape.
Import Gravity Server.
Context {num : Type} `{Number num}.

(** X14.  A request body that parses to a payload ([bodies] absent or an
    array of bodies, [steps] absent or an integer) is always answered 200:
    with [steps] snapshots, 100 when the request gives none, each holding
    one position per body of the request, none when it gives no bodies. *)
Theorem handle_simulate_answers (p : payload) (rand : source) :
  exists t,
    handle_simulate (Some p) rand = Ok200 t
    /\ length t = Z.to_nat (or_default (steps p) 100%Z)
    /\ forall s, In s t -> length s = length (or_default (bodies p) []).
Proof.
  exists (simulate (or_default (bodies p) []) (or_default (dt p) (lit 1 (-1)))
                   (or_default (steps p) 100%Z)
                   (or_default (jitter p) (lit 0 0)) rand).
  split; [reflexivity|]. split.
  - apply simulate_length.
  - apply simulate_snapshots.
Qed.

End HandlerShape.

Section RouteStatuses.
Import String.StringSyntax.
Import Http.
Context {num : Type} `{Number num}.
Variable dirname : String.string.
Variable join : String.string -> String.string -> String.string.
Variable extname_lower : String.string -> String.string.
Variable file : Type.
Variable readFile : String.string -> option file.
Local Open Scope string_scope.

#[local] Abbreviation serve :=
  (listener dirname join extname_lower readFile).

(** X15.  The error statuses of the server, over the requests whose body,
    when it parses, is a payload.  The answer is 400 exactly for a
    [POST /simulate] whose body does not parse, and 500 exactly for a [GET]
    of a static route whose file cannot be read: a missing asset is a 500,
    not a 404, and no payload is ever refused. *)
Theorem listener_error_statuses
    (method pathname : String.string) (parsed : option Server.payload)
    (rand : Gravity.source) :
  (statusCode (serve method pathname parsed rand) = 400
   <-> method = "POST" /\ pathname = "/simulate" /\ parsed = None)
  /\ (statusCode (serve method pathname parsed rand) = 500
      <-> method = "GET"
          /\ exists path, static_path dirname join pathname = Some path
                          /\ readFile path = None).
Proof.
  unfold listener, static_path, serveStaticFile.
  destruct (String.eqb_spec method "GET") as [Hg|Hg];
    destruct (String.eqb_spec method "POST") as [Hp|Hp];
    [exfalso; subst method; discriminate | | |];
    cbn [andb];
    destruct (String.eqb pathname "/" || String.eqb pathname "/index.html");
    destruct (String.prefix "/assets/" pathname);
    destruct (String.eqb_spec pathname "/simulate") as [Hs|Hs];
    destruct parsed as [p|];
    destruct (readFile (join dirname "index.html")) eqn:Hf1;
    destruct (readFile (join dirname pathname)) eqn:Hf2;
    cbn [Server.handle_simulate Server.simulate_call statusCode];
    (split; split; intros Hx; try discriminate Hx;
     repeat match type of Hx with
            | _ /\ _ => let H1 := fresh in destruct Hx as [H1 Hx]
            | exists _, _ => let y := fresh in destruct Hx as [y Hx]
            end;
     try congruence;
     try solve [repeat split; auto];
     try (split; [assumption|];
          eexists; split; [reflexivity | assumption])).
Qed.

End RouteStatuses.

(** ** The sketch: what the force pass and the frame keep *)

Section SketchShape.
Import Coulomb Sketch.
Context {num : Type} `{Number num} `{Comparison num}.

Lemma map_update_nth_same {A B : Type} (h : A -> B) (g : A -> A) :
  (forall a, h (g a) = h a) ->
  forall l i, map h (update_nth i g l) = map h l.
Proof.
  intros Hg. induction l as [|a l IH]; intros [|i]; simpl; auto.
  - now rewrite Hg.
  - now rewrite IH.
Qed.

Lemma apply_pair_rest i j (particles : list Particle) :
  map rest_of (apply_pair i j particles) = map rest_of particles.
Proof.
  unfold apply_pair. now rewrite !map_update_nth_same by reflexivity.
Qed.

Lemma inner_loop_rest i (particles : list Particle) :
  map rest_of (inner_loop i particles) = map rest_of particles.
Proof.
  unfold inner_loop.
  generalize (seq (S i) (length particles - S i)) as js.
  intros js; revert particles.
  induction js as [|j js IH]; intros particles; simpl; auto.
  now rewrite IH, apply_pair_rest.
Qed.

Lemma force_pass_rest (particles : list Particle) :
  map rest_of (force_pass particles) = map rest_of particles.
Proof.
  unfold force_pass.
  transitivity (map rest_of (map resetForce particles));
    [|rewrite map_map; reflexivity].
  generalize (map resetForce particles) as ps.
  generalize (seq 0 (length particles)) as is_.
  induction is_ as [|i is_ IH]; intros ps; simpl; auto.
  now rewrite IH, inner_loop_rest.
Qed.

(** X16.  The force pass of [draw] changes accelerations only: the number
    of particles and the position, velocity and charge of each are what they
    were. *)
Theorem force_pass_changes_only_acc (particles : list Particle) :
  length (force_pass particles) = length particles
  /\ map pos (force_pass particles) = map pos particles
  /\ map vel (force_pass particles) = map vel particles
  /\ map charge (force_pass particles) = map charge particles.
Proof.
  pose proof (force_pass_rest particles) as Hrest.
  split; [|split; [|split]].
  - now rewrite <- (length_map rest_of), Hrest, length_map.
  - apply (f_equal (map (fun r => fst (fst r)))) in Hrest.
    now rewrite !map_map in Hrest.
  - apply (f_equal (map (fun r => snd (fst r)))) in Hrest.
    now rewrite !map_map in Hrest.
  - apply (f_equal (map snd)) in Hrest.
    now rewrite !map_map in Hrest.
Qed.

Lemma update_charge dt width height (p : Particle) :
  charge (update dt width height p) = charge p
  /\ acc (update dt width height p) = acc p.
Proof.
  unfold update, bounce_y, bounce_x, advance.
  repeat match goal with
         | |- context [if ?c then _ else _] => destruct c
         end; cbn [charge acc]; auto.
Qed.

(** X17.  A frame never changes a charge or the number of particles:
    [draw] leaves [particles.length] and every [charge] as they were. *)
Theorem draw_keeps_charges (deltaTime width height : num)
    (particles : list Particle) :
  length (draw deltaTime width height particles) = length particles
  /\ map charge (draw deltaTime width height particles)
     = map charge particles.
Proof.
  pose proof (force_pass_rest particles) as Hrest.
  unfold draw. split.
  - rewrite length_map.
    now rewrite <- (length_map rest_of), Hrest, length_map.
  - apply (f_equal (map snd)) in Hrest. rewrite !map_map in Hrest.
    rewrite map_map.
    transitivity (map charge (force_pass particles)); [|exact Hrest].
    apply map_ext. intros p. apply update_charge.
Qed.

End SketchShape.

(** ** The sketch in exact arithmetic *)

Section SketchExact.
Import Coulomb Sketch.
Local Open Scope R_scope.

Lemma js_lt_R (a b : R) : js_lt a b = true <-> a < b.
Proof. cbn [js_lt RComparison]. destruct (Rlt_dec a b); split; auto; discriminate. Qed.

Lemma js_lt_R_false (a b : R) : js_lt a b = false <-> b <= a.
Proof.
  cbn [js_lt RComparison].
  destruct (Rlt_dec a b); split; intros; try discriminate; try lra; auto.
Qed.

Lemma constrain_R (n low high : R) :
  low <= high -> low <= constrain n low high <= high.
Proof.
  intros Hlh. unfold constrain. cbn [max js_min RNumber RComparison].
  unfold Rmax, Rmin. repeat destruct Rle_dec; lra.
Qed.

Lemma constrain_R_inside (n low high : R) :
  low <= n <= high -> constrain n low high = n.
Proof.
  intros Hn. unfold constrain. cbn [max js_min RNumber RComparison].
  unfold Rmax, Rmin. repeat destruct Rle_dec; lra.
Qed.

Lemma constrain_R_below (n low high : R) :
  low <= high -> n < low -> constrain n low high = low.
Proof.
  intros Hlh Hn. unfold constrain. cbn [max js_min RNumber RComparison].
  unfold Rmax, Rmin. repeat destruct Rle_dec; lra.
Qed.

Lemma constrain_R_above (n low high : R) :
  low <= high -> high < n -> constrain n low high = high.
Proof.
  intros Hlh Hn. unfold constrain. cbn [max js_min RNumber RComparison].
  unfold Rmax, Rmin. repeat destruct Rle_dec; lra.
Qed.

(** One axis of [update]: the position and velocity component after the
    test, from those after the Euler step. *)
Lemma bounce_x_cases (width : R) (p : @Particle R) :
  0 <= width ->
  let q := bounce_x width p in
  Vec.y (pos q) = Vec.y (pos p) /\ Vec.y (vel q) = Vec.y (vel p)
  /\ acc q = acc p /\ charge q = charge p
  /\ ((0 <= Vec.x (pos p) <= width
       /\ Vec.x (pos q) = Vec.x (pos p) /\ Vec.x (vel q) = Vec.x (vel p))
      \/ (Vec.x (pos p) < 0
          /\ Vec.x (pos q) = 0 /\ Vec.x (vel q) = - Vec.x (vel p))
      \/ (width < Vec.x (pos p)
          /\ Vec.x (pos q) = width /\ Vec.x (vel q) = - Vec.x (vel p))).
Proof.
  intros Hw q. subst q. unfold bounce_x.
  destruct (js_lt (Vec.x (pos p)) (lit 0 0)) eqn:Hlo;
    [|destruct (js_lt width (Vec.x (pos p))) eqn:Hhi]; cbn [orb];
    cbn [pos vel acc charge Vec.x Vec.y]; to_R;
    repeat split; auto.
  - apply js_lt_R in Hlo.
    right; left. rewrite constrain_R_below by lra. repeat split; lra.
  - apply js_lt_R in Hhi.
    right; right. rewrite constrain_R_above by lra. repeat split; lra.
  - apply js_lt_R_false in Hlo, Hhi.
    left. repeat split; lra.
Qed.

Lemma bounce_y_cases (height : R) (p : @Particle R) :
  0 <= height ->
  let q := bounce_y height p in
  Vec.x (pos q) = Vec.x (pos p) /\ Vec.x (vel q) = Vec.x (vel p)
  /\ acc q = acc p /\ charge q = charge p
  /\ ((0 <= Vec.y (pos p) <= height
       /\ Vec.y (pos q) = Vec.y (pos p) /\ Vec.y (vel q) = Vec.y (vel p))
      \/ (Vec.y (pos p) < 0
          /\ Vec.y (pos q) = 0 /\ Vec.y (vel q) = - Vec.y (vel p))
      \/ (height < Vec.y (pos p)
          /\ Vec.y (pos q) = height /\ Vec.y (vel q) = - Vec.y (vel p))).
Proof.
  intros Hw q. subst q. unfold bounce_y.
  destruct (js_lt (Vec.y (pos p)) (lit 0 0)) eqn:Hlo;
    [|destruct (js_lt height (Vec.y (pos p))) eqn:Hhi]; cbn [orb];
    cbn [pos vel acc charge Vec.x Vec.y]; to_R;
    repeat split; auto.
  - apply js_lt_R in Hlo.
    right; left. rewrite constrain_R_below by lra. repeat split; lra.
  - apply js_lt_R in Hhi.
    right; right. rewrite constrain_R_above by lra. repeat split; lra.
  - apply js_lt_R_false in Hlo, Hhi.
    left. repeat split; lra.
Qed.

(** X18.  [update] leaves every particle inside the canvas, wherever it was
    and however fast it moves: after it, [0 <= pos.x <= width] and
    [0 <= pos.y <= height]. *)
Theorem update_stays_in_canvas (dt width height : R) (p : @Particle R) :
  0 <= width -> 0 <= height ->
  in_canvas width height (update dt width height p).
Proof.
  intros Hw Hh. unfold update, in_canvas.
  destruct (@bounce_y_cases height (bounce_x width (advance dt p)) Hh)
    as (Hx & _ & _ & _ & Hy).
  destruct (@bounce_x_cases width (advance dt p) Hw) as (_ & _ & _ & _ & Hx').
  cbv zeta in *. rewrite Hx. split.
  - destruct Hx' as [(? & -> & _)|[(? & -> & _)|(? & -> & _)]]; lra.
  - destruct Hy as [(? & -> & _)|[(? & -> & _)|(? & -> & _)]]; lra.
Qed.

Lemma update_inside (dt width height : R) (p : @Particle R) :
  in_canvas width height (advance dt p) ->
  update dt width height p = advance dt p.
Proof.
  intros [Hqx Hqy]. unfold update.
  set (q := advance dt p) in *.
  assert (Hw : 0 <= width) by lra. assert (Hh : 0 <= height) by lra.
  destruct (@bounce_y_cases height (bounce_x width q) Hh)
    as (Hx & Hvx & Ha & Hc & Hy).
  destruct (@bounce_x_cases width q Hw) as (Hy' & Hvy' & Ha' & Hc' & Hx').
  cbv zeta in *.
  set (q1 := bounce_x width q) in *. set (q2 := bounce_y height q1) in *.
  rewrite Hy', Hvy' in Hy.
  destruct Hx' as [(_ & Hpx & Hqvx)|[(? & _)|(? & _)]]; try lra.
  destruct Hy as [(_ & Hpy & Hqvy)|[(? & _)|(? & _)]]; try lra.
  clearbody q2 q1 q.
  destruct q2 as [[x2 y2] [vx2 vy2] a2 c2], q as [[x y] [vx vy] a c].
  cbn [pos vel acc charge Vec.x Vec.y] in *.
  f_equal; [f_equal | f_equal | |]; congruence.
Qed.

(** X19.  [update] is the Euler step, then a reflection per axis.  When the
    Euler position is inside the canvas nothing else happens; on an axis
    where it is outside, the position is put on the border it crossed and
    the velocity component changes sign, keeping its magnitude. *)
Theorem update_reflects (dt width height : R) (p : @Particle R) :
  0 <= width -> 0 <= height ->
  let q := advance dt p in
  let p' := update dt width height p in
  (in_canvas width height q -> p' = q)
  /\ (Vec.x (pos q) < 0 ->
      Vec.x (pos p') = 0 /\ Vec.x (vel p') = - Vec.x (vel q))
  /\ (width < Vec.x (pos q) ->
      Vec.x (pos p') = width /\ Vec.x (vel p') = - Vec.x (vel q))
  /\ (Vec.y (pos q) < 0 ->
      Vec.y (pos p') = 0 /\ Vec.y (vel p') = - Vec.y (vel q))
  /\ (height < Vec.y (pos q) ->
      Vec.y (pos p') = height /\ Vec.y (vel p') = - Vec.y (vel q))
  /\ Rabs (Vec.x (vel p')) = Rabs (Vec.x (vel q))
  /\ Rabs (Vec.y (vel p')) = Rabs (Vec.y (vel q)).
Proof.
  intros Hw Hh q p'. subst p'. unfold update. fold q.
  destruct (@bounce_y_cases height (bounce_x width q) Hh)
    as (Hx & Hvx & Ha & Hc & Hy).
  destruct (@bounce_x_cases width q Hw) as (Hy' & Hvy' & Ha' & Hc' & Hx').
  cbv zeta in *.
  set (q1 := bounce_x width q) in *. set (q2 := bounce_y height q1) in *.
  rewrite Hy', Hvy' in Hy. rewrite Hx, Hvx.
  repeat split.
  - intros Hin. unfold q2, q1, q. now apply update_inside.
  - destruct Hx' as [(? & _)|[(_ & -> & _)|(? & _)]]; lra.
  - destruct Hx' as [(? & _)|[(_ & _ & ->)|(? & _)]]; lra.
  - destruct Hx' as [(? & _)|[(? & _)|(_ & -> & _)]]; lra.
  - destruct Hx' as [(? & _)|[(? & _)|(_ & _ & ->)]]; lra.
  - destruct Hy as [(? & _)|[(_ & -> & _)|(? & _)]]; lra.
  - destruct Hy as [(? & _)|[(_ & _ & ->)|(? & _)]]; lra.
  - destruct Hy as [(? & _)|[(? & _)|(_ & -> & _)]]; lra.
  - destruct Hy as [(? & _)|[(? & _)|(_ & _ & ->)]]; lra.
  - destruct Hx' as [(_ & _ & ->)|[(_ & _ & ->)|(_ & _ & ->)]];
      auto using Rabs_Ropp.
  - destruct Hy as [(_ & _ & ->)|[(_ & _ & ->)|(_ & _ & ->)]];
      auto using Rabs_Ropp.
Qed.

Lemma coulomb_distSq_floor (p1 p2 : @Particle R) : 25 <= distSq p1 p2.
Proof. rewrite coulomb_distSq_eq. apply Rmax_r. Qed.

Lemma coulomb_dist_floor (p1 p2 : @Particle R) :
  5 <= dist p1 p2 /\ dist p1 p2 * dist p1 p2 = distSq p1 p2.
Proof.
  pose proof (coulomb_distSq_floor p1 p2) as Hd.
  unfold dist. cbn [sqrt RNumber].
  assert (Hsq : R_sqrt.sqrt (distSq p1 p2) * R_sqrt.sqrt (distSq p1 p2)
                = distSq p1 p2) by (apply sqrt_sqrt; lra).
  pose proof (sqrt_pos (distSq p1 p2)) as Hpos.
  split; [nra | exact Hsq].
Qed.

(** X20.  The sign of the Coulomb force as the code applies it.  The vector
    added to the acceleration of [p1] is [c] times the direction from [p1]
    to [p2], and [c] has the sign of the product of the charges: charges of
    the same sign are pulled towards each other, charges of opposite signs
    pushed apart, and a zero charge feels nothing. *)
Theorem coulomb_force_sign (p1 p2 : @Particle R) :
  exists c,
    vmult (force p1 p2) (lit 1 0)
    = Vec.mk (c * (Vec.x (pos p2) - Vec.x (pos p1)))
             (c * (Vec.y (pos p2) - Vec.y (pos p1)))
    /\ (0 < charge p1 * charge p2 -> 0 < c)
    /\ (charge p1 * charge p2 < 0 -> c < 0)
    /\ (charge p1 * charge p2 = 0 -> c = 0).
Proof.
  destruct (coulomb_dist_floor p1 p2) as [Hd Hsq].
  pose proof (coulomb_distSq_floor p1 p2) as Hd2.
  exists (500 * (charge p1 * charge p2) / (distSq p1 p2 * dist p1 p2)).
  assert (Hden : 0 < distSq p1 p2 * dist p1 p2) by nra.
  split; [|repeat split].
  - unfold force, forceDir, forceMag, direction, vmult, vdiv, vsub,
      COULOMB_CONSTANT.
    cbn [Vec.x Vec.y]. to_R.
    f_equal; field; lra.
  - intros Hq. apply Rdiv_lt_0_compat; lra.
  - intros Hq.
    replace (500 * (charge p1 * charge p2) / (distSq p1 p2 * dist p1 p2))
      with (- (500 * (- (charge p1 * charge p2))
               / (distSq p1 p2 * dist p1 p2))) by (field; lra).
    assert (0 < 500 * (- (charge p1 * charge p2))
                / (distSq p1 p2 * dist p1 p2))
      by (apply Rdiv_lt_0_compat; lra).
    lra.
  - intros ->. field. lra.
Qed.

Lemma or_zero_R (x : R) : or_zero x = x.
Proof.
  unfold or_zero. cbn [js_lt RComparison]. to_R.
  destruct (Rlt_dec x 0); [reflexivity|].
  destruct (Rlt_dec 0 x); [reflexivity|]. cbn [orb]. lra.
Qed.

Lemma createVector_R (x y : R) : createVector x y = Vec.mk x y.
Proof. unfold createVector. now rewrite !or_zero_R. Qed.

Lemma setup_spec {num : Type} `{Number num} `{Comparison num}
    (width height : num)
    (rand : nat -> num) (particles : list (@Particle num)) :
  setup width height rand particles
  = particles ++ map (setup_particle width height rand) (seq 0 NUM_PARTICLES).
Proof.
  unfold setup. generalize (seq 0 NUM_PARTICLES) as is_.
  intros is_; revert particles.
  induction is_ as [|i is_ IH]; intros particles; simpl.
  - now rewrite app_nil_r.
  - now rewrite IH, <- app_assoc.
Qed.

Lemma total_charge_app (ps qs : list (@Particle R)) :
  total_charge (ps ++ qs) = total_charge ps + total_charge qs.
Proof.
  induction ps as [|p ps IH]; simpl; [ring|]. rewrite IH. ring.
Qed.

(** X21.  [setup] appends twenty particles at rest in acceleration, with
    charges alternating [+1], [-1] from the first: ten of each, so the total
    charge of the particles is unchanged, whatever the window and the random
    values. *)
Theorem setup_adds_neutral_set (width height : R) (rand : nat -> R)
    (particles : list (@Particle R)) :
  let ps := setup width height rand particles in
  length ps = (length particles + 20)%nat
  /\ (forall i, (i < length particles)%nat ->
        nth i ps particle0 = nth i particles particle0)
  /\ (forall i, (i < 20)%nat ->
        let p := nth (length particles + i) ps particle0 in
        charge p = (if Nat.even i then 1 else -1)
        /\ acc p = Vec.mk 0 0)
  /\ total_charge ps = total_charge particles.
Proof.
  intros ps. subst ps. rewrite setup_spec.
  assert (Hnth : forall i, (i < 20)%nat ->
            nth (length particles + i)
                (particles
                 ++ map (setup_particle width height rand)
                        (seq 0 NUM_PARTICLES)) particle0
            = setup_particle width height rand i).
  { intros i Hi. rewrite app_nth2_plus.
    rewrite (nth_indep _ particle0 (setup_particle width height rand 0))
      by (rewrite length_map, length_seq; exact Hi).
    rewrite (map_nth (setup_particle width height rand)
                     (seq 0 NUM_PARTICLES) 0%nat i).
    now rewrite seq_nth. }
  split; [|split; [|split]].
  - now rewrite length_app, length_map, length_seq.
  - intros i Hi. now rewrite app_nth1.
  - intros i Hi. cbv zeta. rewrite Hnth by assumption.
    unfold setup_particle, new_Particle. cbn [charge acc].
    rewrite createVector_R. to_R.
    split; [|reflexivity].
    do 20 (destruct i as [|i]; [reflexivity|]). lia.
  - rewrite total_charge_app.
    assert (Hz : total_charge (map (setup_particle width height rand)
                                   (seq 0 NUM_PARTICLES)) = 0).
    { unfold NUM_PARTICLES, total_charge, setup_particle, new_Particle.
      cbn [seq map fold_right charge Nat.modulo Nat.divmod Nat.eqb fst snd
           Nat.sub].
      to_R. lra. }
    rewrite Hz. ring.
Qed.

(** X22.  [setup] places its particles inside the canvas: for random values
    in [0, 1), every particle it appends has [0 <= pos.x <= width],
    [0 <= pos.y <= height] and both velocity components in [-50, 50). *)
Theorem setup_inside_canvas (width height : R) (rand : nat -> R)
    (particles : list (@Particle R)) (i : nat) :
  unit_source rand -> 0 <= width -> 0 <= height -> (i < 20)%nat ->
  let p := nth (length particles + i)
               (setup width height rand particles) particle0 in
  in_canvas width height p
  /\ -50 <= Vec.x (vel p) < 50 /\ -50 <= Vec.y (vel p) < 50.
Proof.
  intros Hr Hw Hh Hi p. subst p. rewrite setup_spec, app_nth2_plus.
  rewrite (nth_indep _ particle0 (setup_particle width height rand 0))
    by (rewrite length_map, length_seq; exact Hi).
  rewrite (map_nth (setup_particle width height rand)
                   (seq 0 NUM_PARTICLES) 0%nat i).
  rewrite seq_nth by exact Hi.
  unfold setup_particle, new_Particle, in_canvas, random1, random2.
  rewrite !createVector_R.
  cbn [pos vel Vec.x Vec.y Nat.add]. to_R.
  pose proof (Hr (4 * i)%nat) as H0. pose proof (Hr (4 * i + 1)%nat) as H1.
  pose proof (Hr (4 * i + 2)%nat) as H2. pose proof (Hr (4 * i + 3)%nat) as H3.
  change (Rlit (-50) 0) with (-50). change (Rlit 50 0) with 50.
  repeat split; nra.
Qed.

Lemma pair_alpha_value (p1 p2 : @Particle R) :
  pair_alpha p1 p2
  = constrain (3750 * Rabs (charge p1 * charge p2) / distSq p1 p2 + 50)
              50 200.
Proof.
  pose proof (coulomb_distSq_floor p1 p2) as Hd.
  unfold pair_alpha, p5_map, forceMag, COULOMB_CONSTANT, MIN_DIST_SQ.
  cbn [js_abs RComparison]. to_R.
  change (Rlit 50 0) with 50. change (Rlit 200 0) with 200.
  f_equal.
  replace (500 * charge p1 * charge p2 / distSq p1 p2)
    with (500 * (charge p1 * charge p2) * / distSq p1 p2)
    by (field; lra).
  rewrite !Rabs_mult, Rabs_inv.
  rewrite (Rabs_pos_eq 500) by lra.
  rewrite (Rabs_pos_eq (distSq p1 p2)) by lra.
  field. lra.
Qed.

(** X23.  The line of a pair.  [draw] strokes a line between two particles
    exactly when they are less than [LINE_RANGE = 200] apart
    ([|d|^2 < 40000]); it joins their positions, is green exactly when the
    product of the charges is positive, and its opacity lies in
    [50, 200]. *)
Theorem line_drawn_within_range (p1 p2 : @Particle R) :
  ((exists l, pair_line p1 p2 = Some l)
   <-> sep_sq (Vec.x (pos p1)) (Vec.y (pos p1))
              (Vec.x (pos p2)) (Vec.y (pos p2)) < 40000)
  /\ forall l, pair_line p1 p2 = Some l ->
       line_from l = pos p1 /\ line_to l = pos p2
       /\ (line_green l = true <-> 0 < charge p1 * charge p2)
       /\ 50 <= line_alpha l <= 200.
Proof.
  destruct (coulomb_dist_floor p1 p2) as [Hd Hsq].
  pose proof (coulomb_distSq_eq p1 p2) as Heq.
  unfold pair_line, LINE_RANGE. change (lit 200 0) with 200.
  split.
  - assert (Hiff : dist p1 p2 < 200
                   <-> sep_sq (Vec.x (pos p1)) (Vec.y (pos p1))
                              (Vec.x (pos p2)) (Vec.y (pos p2)) < 40000).
    { rewrite Heq in Hsq. revert Hsq. unfold Rmax.
      destruct Rle_dec; intros Hsq; split; intros; nra. }
    destruct (js_lt (dist p1 p2) 200) eqn:Hlt.
    + apply js_lt_R in Hlt. split; [intros _; now apply Hiff | eauto].
    + apply js_lt_R_false in Hlt. split.
      * intros [l Hl]. discriminate.
      * intros Hs. apply Hiff in Hs. lra.
  - intros l Hl.
    destruct (js_lt (dist p1 p2) 200); [|discriminate].
    injection Hl as <-.
    split; [reflexivity|]. split; [reflexivity|]. split.
    + change (line_green _) with (js_lt (lit 0 0) (charge p1 * charge p2)).
      rewrite js_lt_R. to_R. reflexivity.
    + change (line_alpha _) with (pair_alpha p1 p2).
      rewrite pair_alpha_value. apply constrain_R. lra.
Qed.

(** X24.  Between charges of magnitude one, the opacity of a line is
    [50 + 3750 / distSq] with no clamping, since [distSq >= 25]; it reaches
    its maximum 200 exactly when the particles are within the softening
    distance, [|d|^2 <= 25]. *)
Theorem unit_charge_alpha (p1 p2 : @Particle R) :
  Rabs (charge p1 * charge p2) = 1 ->
  pair_alpha p1 p2 = 50 + 3750 / distSq p1 p2
  /\ (pair_alpha p1 p2 = 200
      <-> sep_sq (Vec.x (pos p1)) (Vec.y (pos p1))
                 (Vec.x (pos p2)) (Vec.y (pos p2)) <= 25).
Proof.
  intros Hq. pose proof (coulomb_distSq_floor p1 p2) as Hd.
  assert (Hv : pair_alpha p1 p2 = 50 + 3750 / distSq p1 p2).
  { rewrite pair_alpha_value, Hq.
    assert (Hb : 0 < 3750 / distSq p1 p2 <= 150).
    { split; [apply Rdiv_lt_0_compat; lra|].
      apply Rmult_le_reg_r with (distSq p1 p2); [lra|].
      replace (3750 / distSq p1 p2 * distSq p1 p2) with 3750
        by (field; lra).
      lra. }
    rewrite constrain_R_inside; [field; lra|].
    replace (3750 * 1 / distSq p1 p2) with (3750 / distSq p1 p2)
      by (field; lra).
    lra. }
  split; [exact Hv|]. rewrite Hv. clear Hv.
  rewrite coulomb_distSq_eq in *.
  set (s := sep_sq _ _ _ _) in *. unfold Rmax in *.
  destruct (Rle_dec s 25) as [Hs|Hs].
  - split; intros; lra.
  - split; intros He; [|lra]. exfalso.
    assert (H150 : 3750 / s = 150) by lra.
    apply (f_equal (fun r => r * s)) in H150.
    replace (3750 / s * s) with 3750 in H150 by (field; lra).
    lra.
Qed.

Lemma force_pass_acc_sum (particles : list (@Particle R)) :
  sum_x (map acc (force_pass particles)) = 0
  /\ sum_y (map acc (force_pass particles)) = 0.
Proof.
  unfold force_pass.
  assert (Hz : sum_x (map acc (map resetForce particles)) = 0
               /\ sum_y (map acc (map resetForce particles)) = 0).
  { induction particles as [|p ps [IHx IHy]]; simpl; auto.
    to_R. rewrite IHx, IHy. split; ring. }
  revert Hz. generalize (map resetForce particles) as ps.
  generalize (seq 0 (length particles)) as is_.
  induction is_ as [|i is_ IH]; intros ps Hz; simpl; auto.
  apply IH. destruct (coulomb_inner_loop_sum i ps) as [Hx Hy].
  destruct Hz as [Zx Zy]. split; congruence.
Qed.

Lemma advance_vel_sum (dt : R) (ps : list (@Particle R)) :
  sum_x (map vel (map (advance dt) ps))
  = sum_x (map vel ps) + sum_x (map acc ps) * dt
  /\ sum_y (map vel (map (advance dt) ps))
     = sum_y (map vel ps) + sum_y (map acc ps) * dt.
Proof.
  induction ps as [|p ps [IHx IHy]]; simpl; [split; ring|].
  rewrite IHx, IHy. unfold vadd, vmult. cbn [Vec.x Vec.y]. to_R.
  split; ring.
Qed.

(** X25.  A frame in which no particle crosses the border conserves the
    total velocity (the momentum, all masses being one): the sums of the
    velocity components after [draw] are those before it. *)
Theorem draw_conserves_velocity_sum (deltaTime width height : R)
    (particles : list (@Particle R)) :
  (forall p, In p (force_pass particles) ->
             in_canvas width height (advance (deltaTime / 1000) p)) ->
  sum_x (map vel (draw deltaTime width height particles))
  = sum_x (map vel particles)
  /\ sum_y (map vel (draw deltaTime width height particles))
     = sum_y (map vel particles).
Proof.
  intros Hin. unfold draw. to_R. change (Rlit 1000 0) with 1000.
  rewrite (map_ext_in (update (deltaTime / 1000) width height)
                      (advance (deltaTime / 1000)))
    by (intros p Hp; apply update_inside, Hin, Hp).
  destruct (advance_vel_sum (deltaTime / 1000) (force_pass particles))
    as [Hx Hy].
  destruct (force_pass_acc_sum particles) as [Ax Ay].
  pose proof (force_pass_rest particles) as Hrest.
  apply (f_equal (map (fun r => snd (fst r)))) in Hrest.
  rewrite !map_map in Hrest. cbn [rest_of fst snd] in Hrest.
  assert (Hvel : map vel (force_pass particles) = map vel particles)
    by exact Hrest.
  rewrite Hx, Hy, Ax, Ay, Hvel. split; ring.
Qed.

End SketchExact.

(** ** The further theorems at concrete calls *)

Section RunWitnesses.
Import Gravity.
Local Open Scope R_scope.

Lemma zero_source_unit : unit_source (fun _ => 0).
Proof. intros k. lra. Qed.

Lemma two_bodies_nonzero :
  forall b, In b two_bodies -> Body.mass b <> 0.
Proof. intros b [<-|[<-|[]]]; simpl; lra. Qed.

(** X5 at the two-body scenario: one step against two. *)
Lemma simulate_prefix_witness :
  (0 <= 1 <= 2)%Z
  /\ firstn (Z.to_nat 1) (simulate two_bodies 1 2 0 (fun _ => 0))
     = simulate two_bodies 1 1 0 (fun _ => 0).
Proof.
  split; [lia|].
  exact (@simulate_prefix R _ two_bodies 1 1%Z 2%Z 0 (fun _ => 0)
           ltac:(lia)).
Defined.

(** X7 at the body moving at speed 1, second snapshot of two. *)
Lemma lone_body_moves_uniformly_witness :
  Body.mass moving_body <> 0
  /\ (1 < Z.to_nat 2)%nat
  /\ nth 1 (simulate [moving_body] 1 2 0 (fun _ => 0)) []
     = [Vec.mk (Body.x moving_body + INR 2 * (Body.vx moving_body * 1))
               (Body.y moving_body + INR 2 * (Body.vy moving_body * 1))].
Proof.
  assert (Hm : Body.mass moving_body <> 0) by (simpl; lra).
  assert (Hk : (1 < Z.to_nat 2)%nat) by lia.
  split; [exact Hm|]. split; [exact Hk|].
  exact (@lone_body_moves_uniformly moving_body 1 2%Z (fun _ => 0) 1%nat
           Hm Hk).
Defined.

(** X8 at the two-body scenario, first snapshot. *)
Lemma simulate_zero_dt_freezes_witness :
  (forall b, In b two_bodies -> Body.mass b <> 0)
  /\ (0 < Z.to_nat 1)%nat
  /\ nth 0 (simulate two_bodies 0 1 0 (fun _ => 0)) [] = snapshot two_bodies.
Proof.
  assert (Hk : (0 < Z.to_nat 1)%nat) by lia.
  split; [exact two_bodies_nonzero|]. split; [exact Hk|].
  exact (@simulate_zero_dt_freezes two_bodies 1%Z (fun _ => 0) 0%nat
           two_bodies_nonzero Hk).
Defined.

(** X9 at the two-body scenario with jitter 4 and the source at 0. *)
Lemma jitter_displacement_bounded_witness :
  unit_source (fun _ => 0)
  /\ (0 < length two_bodies)%nat
  /\ Body.mass (nth 0 two_bodies body0) <> 0
  /\ Rabs (Body.x (nth 0 (fst (step 1 4 (fun _ => 0) (two_bodies, O))) body0)
           - (Body.x (nth 0 two_bodies body0)
              + Body.vx (nth 0 (fst (step 1 4 (fun _ => 0) (two_bodies, O)))
                          body0) * 1))
     <= Rabs 4 / 2.
Proof.
  assert (Hi : (0 < length two_bodies)%nat) by (simpl; lia).
  assert (Hm : Body.mass (nth 0 two_bodies body0) <> 0) by (simpl; lra).
  split; [exact zero_source_unit|]. split; [exact Hi|]. split; [exact Hm|].
  exact (proj1 (@jitter_displacement_bounded two_bodies O 1 4 (fun _ => 0)
                  0%nat zero_source_unit Hi Hm)).
Defined.

(** X10 at the pair of the two-body scenario. *)
Lemma gravity_is_attractive_witness :
  0 < Body.mass body_at_origin /\ 0 < Body.mass body_at_ten
  /\ exists c, 0 < c
       /\ Vec.x (pair_force body_at_origin body_at_ten)
          = c * (Body.x body_at_ten - Body.x body_at_origin)
       /\ Vec.y (pair_force body_at_origin body_at_ten)
          = c * (Body.y body_at_ten - Body.y body_at_origin).
Proof.
  assert (Ha : 0 < Body.mass body_at_origin) by (simpl; lra).
  assert (Hb : 0 < Body.mass body_at_ten) by (simpl; lra).
  split; [exact Ha|]. split; [exact Hb|].
  exact (@gravity_is_attractive body_at_origin body_at_ten Ha Hb).
Defined.

(** X11 at the pair of the two-body scenario. *)
Lemma gravity_forceMag_bounded_witness :
  0 < Body.mass body_at_origin /\ 0 < Body.mass body_at_ten
  /\ 0 < forceMag body_at_origin body_at_ten
     <= Body.mass body_at_origin * Body.mass body_at_ten * 100000000.
Proof.
  assert (Ha : 0 < Body.mass body_at_origin) by (simpl; lra).
  assert (Hb : 0 < Body.mass body_at_ten) by (simpl; lra).
  split; [exact Ha|]. split; [exact Hb|].
  exact (proj1 (@gravity_forceMag_bounded body_at_origin body_at_ten Ha Hb)).
Defined.

(** X12 at the two-body scenario after three iterations. *)
Lemma simulate_conserves_momentum_witness :
  (forall b, In b two_bodies -> Body.mass b <> 0)
  /\ momentum_x (state_after two_bodies 1 0 (fun _ => 0) 3)
     = momentum_x two_bodies.
Proof.
  split; [exact two_bodies_nonzero|].
  exact (proj1 (@simulate_conserves_momentum two_bodies 1 0 (fun _ => 0)
                  3%nat two_bodies_nonzero)).
Defined.

End RunWitnesses.

Section PoisonWitnesses.
Import Gravity.
Local Open Scope float_scope.

(** X13 at two bodies, the first given a NaN [x]: the second body's
    coordinates in the first snapshot. *)
Lemma nan_poisons_trajectory_witness :
  (2 <= length [float_body 1 nan 0; float_body 1 1 0])%nat
  /\ PrimFloat.is_nan
       (Vec.x (nth 1 (nth 0 (simulate [float_body 1 nan 0; float_body 1 1 0]
                               1 1 0 (fun _ => 0)) [])
                     (Vec.mk 0 0)))
     = true.
Proof.
  split; [simpl; lia|].
  exact (proj1 (@nan_poisons_trajectory
                  [float_body 1 nan 0; float_body 1 1 0] 1 1%Z 0
                  (fun _ => 0) 0%nat
                  ltac:(simpl; lia) ltac:(simpl; lia) ltac:(reflexivity)
                  0%nat 1%nat (Vec.mk 0 0)
                  ltac:(simpl; lia) ltac:(simpl; lia))).
Defined.

End PoisonWitnesses.

Section SketchWitnesses.
Import Coulomb Sketch.
Local Open Scope R_scope.

(** X18 at a particle that leaves a 200 x 100 canvas on the right. *)
Lemma update_stays_in_canvas_witness :
  0 <= 200 /\ 0 <= 100
  /\ in_canvas 200 100 (update 1 200 100 (new_Particle 150 50 100 0 1)).
Proof.
  assert (Hw : 0 <= 200) by lra. assert (Hh : 0 <= 100) by lra.
  split; [exact Hw|]. split; [exact Hh|].
  exact (@update_stays_in_canvas 1 200 100 (new_Particle 150 50 100 0 1)
           Hw Hh).
Defined.

(** X19 at the same particle: the velocity keeps its magnitude. *)
Lemma update_reflects_witness :
  0 <= 200 /\ 0 <= 100
  /\ Rabs (Vec.x (vel (update 1 200 100 (new_Particle 150 50 100 0 1))))
     = Rabs (Vec.x (vel (advance 1 (new_Particle 150 50 100 0 1)))).
Proof.
  assert (Hw : 0 <= 200) by lra. assert (Hh : 0 <= 100) by lra.
  split; [exact Hw|]. split; [exact Hh|].
  exact (proj1 (proj2 (proj2 (proj2 (proj2 (proj2
           (@update_reflects 1 200 100 (new_Particle 150 50 100 0 1)
              Hw Hh))))))).
Defined.

(** X22 at a 200 x 100 canvas, the source at 0, the first particle. *)
Lemma setup_inside_canvas_witness :
  unit_source (fun _ => 0) /\ 0 <= 200 /\ 0 <= 100 /\ (0 < 20)%nat
  /\ in_canvas 200 100
       (nth (length (@nil (@Particle R)) + 0)
            (setup 200 100 (fun _ => 0) []) particle0).
Proof.
  assert (Hw : 0 <= 200) by lra. assert (Hh : 0 <= 100) by lra.
  assert (Hi : (0 < 20)%nat) by lia.
  split; [exact zero_source_unit|]. split; [exact Hw|]. split; [exact Hh|].
  split; [exact Hi|].
  exact (proj1 (@setup_inside_canvas 200 100 (fun _ => 0) [] 0%nat
                  zero_source_unit Hw Hh Hi)).
Defined.

Lemma opposite_units : Rabs (1 * -1) = 1.
Proof. unfold Rabs. destruct (Rcase_abs (1 * -1)); lra. Qed.

(** X24 at opposite unit charges ten pixels apart. *)
Lemma unit_charge_alpha_witness :
  Rabs (charge (new_Particle 0 0 0 0 1) * charge (new_Particle 10 0 0 0 (-1)))
  = 1
  /\ pair_alpha (new_Particle 0 0 0 0 1) (new_Particle 10 0 0 0 (-1))
     = 50 + 3750 / distSq (new_Particle 0 0 0 0 1)
                          (new_Particle 10 0 0 0 (-1)).
Proof.
  split; [exact opposite_units|].
  exact (proj1 (@unit_charge_alpha (new_Particle 0 0 0 0 1)
                  (new_Particle 10 0 0 0 (-1)) opposite_units)).
Defined.

(** Two particles of charge +1 ten pixels apart, moving: the force pass
    gives the first the acceleration (5, 0) and the second (-5, 0). *)
Lemma interacting_pair_pass :
  force_pass [new_Particle 50 50 3 0 1; new_Particle 60 50 (-1) 2 1]
  = [mkParticle (Vec.mk 50 50) (Vec.mk 3 0) (Vec.mk 5 0) 1;
     mkParticle (Vec.mk 60 50) (Vec.mk (-1) 2) (Vec.mk (-5) 0) 1].
Proof.
  unfold new_Particle. rewrite !createVector_R.
  unfold force_pass, inner_loop, apply_pair, resetForce, applyForce.
  cbn [map length seq fold_left Nat.sub nth update_nth pos vel acc charge].
  set (f := force _ _).
  assert (Hf : f = Vec.mk 5 0).
  { subst f.
    unfold force, forceDir, forceMag, dist, vmult, vdiv, direction, vsub,
      COULOMB_CONSTANT.
    rewrite coulomb_distSq_eq. cbn [pos charge Vec.x Vec.y]. to_R.
    assert (Hs : Rmax (sep_sq 50 50 60 50) 25 = 10 * 10).
    { unfold sep_sq, Rmax. destruct Rle_dec; lra. }
    rewrite Hs, sqrt_square by lra.
    f_equal; field. }
  rewrite Hf. unfold vadd, vmult. cbn [Vec.x Vec.y]. to_R.
  repeat (f_equal; try lra).
Qed.

(** X25 at that pair in a 200 x 100 canvas, for a frame of 16 ms: the
    accelerations are not zero, and the velocity sum stays (2, 2). *)
Lemma draw_conserves_velocity_sum_witness :
  (forall p,
      In p (force_pass [new_Particle 50 50 3 0 1;
                        new_Particle 60 50 (-1) 2 1]) ->
      in_canvas 200 100 (advance (16 / 1000) p))
  /\ map acc (force_pass [new_Particle 50 50 3 0 1;
                          new_Particle 60 50 (-1) 2 1])
     = [Vec.mk 5 0; Vec.mk (-5) 0]
  /\ sum_x (map vel (draw 16 200 100 [new_Particle 50 50 3 0 1;
                                      new_Particle 60 50 (-1) 2 1]))
     = sum_x (map vel [new_Particle 50 50 3 0 1;
                       new_Particle 60 50 (-1) 2 1])
  /\ sum_y (map vel (draw 16 200 100 [new_Particle 50 50 3 0 1;
                                      new_Particle 60 50 (-1) 2 1]))
     = sum_y (map vel [new_Particle 50 50 3 0 1;
                       new_Particle 60 50 (-1) 2 1]).
Proof.
  assert (Hin : forall p,
             In p (force_pass [new_Particle 50 50 3 0 1;
                               new_Particle 60 50 (-1) 2 1]) ->
             in_canvas 200 100 (advance (16 / 1000) p)).
  { rewrite interacting_pair_pass.
    intros p [<-|[<-|[]]]; unfold in_canvas, advance, vadd, vmult;
      cbn [pos vel acc Vec.x Vec.y]; to_R; lra. }
  split; [exact Hin|].
  split; [rewrite interacting_pair_pass; reflexivity|].
  exact (@draw_conserves_velocity_sum 16 200 100
           [new_Particle 50 50 3 0 1; new_Particle 60 50 (-1) 2 1] Hin).
Defined.

End SketchWitnesses.
